(** * dictate: the transcript index (src/dictate/vector_store.py)

    A shallow embedding of [VectorStoreManager]: the text chunker
    [chunk_text], the index operations [add_transcript],
    [search_similar], [remove_transcript], [voice_search],
    [get_collection_stats] and [rebuild_index], written against the
    capabilities they call (the file system, the clock, the embedding
    provider and the ChromaDB collection), and of the two methods of
    [GeminiTranscriber] (src/dictate/transcription.py) that the index
    relies on: [get_embedding] and [_clean_transcription]. Scores are
    Python floats (binary64), with the rounding of [SpecFloat]. *)

From Stdlib Require Import ZArith Lia Floats.
From stdpp Require Import base gmap strings list pretty sorting.

Open Scope Z_scope.

(** ** Python strings

    A Python [str] is a sequence of Unicode code points. *)

Definition char := N.
Definition str := list char.

(** Code points of a literal, for readable examples. *)
Definition str_of (s : string) : str :=
  map Ascii.N_of_ascii (String.list_ascii_of_string s).

Definition space : char := 32%N.

(** [len(s)] *)
Definition len (s : str) : Z := Z.of_nat (length s).

(** The whitespace test behind [str.strip()] with no argument
    (CPython's [_PyUnicode_IsWhitespace]). *)
Definition isspace (c : char) : bool :=
  ((9 <=? c) && (c <=? 13) || (28 <=? c) && (c <=? 32)
   || (c =? 133) || (c =? 160) || (c =? 5760)
   || (8192 <=? c) && (c <=? 8202)
   || (c =? 8232) || (c =? 8233) || (c =? 8239) || (c =? 8287)
   || (c =? 12288))%N.

Fixpoint lstrip (s : str) : str :=
  match s with
  | c :: s' => if isspace c then lstrip s' else s
  | [] => []
  end.

Definition rstrip (s : str) : str := rev (lstrip (rev s)).

(** [s.strip()] *)
Definition strip (s : str) : str := rstrip (lstrip s).

(** Truth value of a string: [if chunk:] *)
Definition truthy (s : str) : bool :=
  match s with [] => false | _ :: _ => true end.

(** Index normalisation shared by slices and by the [start]/[end]
    arguments of [str.rfind]: a negative index counts from the end, and
    the result is clipped to [0 .. n]. *)
Definition adjust (n i : Z) : Z :=
  if i <? 0 then Z.max 0 (i + n) else Z.min i n.

(** [s[a:b]] *)
Definition slice (s : str) (a b : Z) : str :=
  let a' := adjust (len s) a in
  let b' := adjust (len s) b in
  take (Z.to_nat (b' - a')) (drop (Z.to_nat a') s).

(** Scan left to right from index [i], remembering the last position in
    [lo .. hi) that holds [c]. *)
Fixpoint rfind_scan (c : char) (s : str) (i lo hi acc : Z) : Z :=
  match s with
  | [] => acc
  | x :: s' =>
      rfind_scan c s' (i + 1) lo hi
        (if (lo <=? i) && (i <? hi) && (x =? c)%N then i else acc)
  end.

(** [s.rfind(c, a, b)] for a one-character needle: the highest index in
    the slice that holds [c], or -1. *)
Definition rfind (c : char) (s : str) (a b : Z) : Z :=
  rfind_scan c s 0 (adjust (len s) a) (adjust (len s) b) (-1).

(** The length of the longest run of characters other than the space:
    [cur] is the length of the run being read, [best] the longest run
    seen before it. *)
Fixpoint longest_run (s : str) (cur best : Z) : Z :=
  match s with
  | [] => Z.max cur best
  | c :: s' =>
      if (c =? space)%N then longest_run s' 0 (Z.max cur best)
      else longest_run s' (cur + 1) best
  end.

Definition longest_word (s : str) : Z := longest_run s 0 0.

(** ** The chunker *)

Module Chunker.

(** One pass through the body of the [while] loop of [chunk_text]:
    from the loop variables [(start, chunks)] to their next values. *)
Definition step (text : str) (chunk_size chunk_overlap : Z)
    (start : Z) (chunks : list str) : Z * list str :=
  let end_ := start + chunk_size in
  let end_ :=
    if end_ <? len text then
      let last_space := rfind space text start end_ in
      if last_space >? start then last_space else end_
    else end_ in
  let chunk := strip (slice text start end_) in
  let chunks := if truthy chunk then chunks ++ [chunk] else chunks in
  let start := end_ - chunk_overlap in
  let start := if start <=? 0 then end_ else start in
  (start, chunks).

(** The [while start < len(text)] loop, run for at most [fuel]
    iterations; [None] when the loop is still running after that. *)
Fixpoint loop (fuel : nat) (text : str) (chunk_size chunk_overlap : Z)
    (start : Z) (chunks : list str) : option (list str) :=
  if start <? len text then
    match fuel with
    | O => None
    | S fuel' =>
        let '(start', chunks') :=
          step text chunk_size chunk_overlap start chunks in
        loop fuel' text chunk_size chunk_overlap start' chunks'
    end
  else Some chunks.

(** [chunk_text(text, chunk_size, chunk_overlap)] *)
Definition chunk_text (fuel : nat) (text : str)
    (chunk_size chunk_overlap : Z) : option (list str) :=
  if len text <=? chunk_size then Some [text]
  else loop fuel text chunk_size chunk_overlap 0 [].

Definition default_chunk_size : Z := 500.
Definition default_chunk_overlap : Z := 50.

(** A transcript of 561 characters: sixty letters, one space, then a run
    of 500 characters without a space (a long URL or token). *)
Definition stuck_text : str :=
  replicate 60 97%N ++ [space] ++ replicate 500 98%N.

End Chunker.

(** ** Effects

    The index operations call out to the file system, the clock, the
    embedding provider and the collection. Each such call may return,
    raise, or (for the chunker's loop) never come back; the world [W]
    they act on is threaded through. *)

(** Instances of Python's [Exception], the class every handler of the
    module names. *)
Inductive exn :=
  | IndexError
  | AttributeError
  | ValueError
  | OSError
  | RuntimeError.

Inductive result (W A : Type) :=
  | Return (a : A) (w : W)
  | Raise (e : exn) (w : W)
  | Diverge.
Arguments Return {W A} a w.
Arguments Raise {W A} e w.
Arguments Diverge {W A}.

Definition M (W A : Type) : Type := W -> result W A.

Definition ret {W A} (a : A) : M W A := fun w => Return a w.

Definition raise {W A} (e : exn) : M W A := fun w => Raise e w.

Definition diverge {W A} : M W A := fun _ => Diverge.

Definition bind {W A B} (m : M W A) (k : A -> M W B) : M W B :=
  fun w =>
    match m w with
    | Return a w' => k a w'
    | Raise e w' => Raise e w'
    | Diverge => Diverge
    end.

(** [try: body except Exception as e: handler] *)
Definition try_except {W A} (body : M W A) (handler : exn -> M W A) : M W A :=
  fun w =>
    match body w with
    | Raise e w' => handler e w'
    | r => r
    end.

(** What a finished call returned, and the world it left (the world it
    started from if it never finished). *)
Definition value_of {W A} (r : result W A) : option A :=
  match r with
  | Return a _ => Some a
  | _ => None
  end.

Definition world_of {W A} (r : result W A) (w0 : W) : W :=
  match r with
  | Return _ w => w
  | Raise _ w => w
  | Diverge => w0
  end.

Definition after {W A} (m : M W A) (w : W) : W := world_of (m w) w.

(** A call came back without raising: it returned, or it never ended. *)
Definition quiet {W A} (r : result W A) : Prop :=
  match r with
  | Raise _ _ => False
  | _ => True
  end.

Declare Scope py_scope.
Delimit Scope py_scope with py.
Notation "x <- m ;; k" := (bind m (fun x => k))
  (at level 100, m at next level, right associativity) : py_scope.
Notation "m ;;; k" := (bind m (fun _ => k))
  (at level 100, right associativity) : py_scope.

(** [for x in xs: ys.append(f(x))], stopping at the first exception. *)
Fixpoint for_each {W A B} (f : A -> M W B) (xs : list A) : M W (list B) :=
  match xs with
  | [] => ret []
  | x :: xs' => (y <- f x ;; ys <- for_each f xs' ;; ret (y :: ys))%py
  end.

(** [xs[i]] for a non-negative [i]. *)
Definition item {W A} (xs : list A) (i : nat) : M W A :=
  match xs !! i with
  | Some x => ret x
  | None => raise IndexError
  end.

(** ** Data exchanged with the collection *)

(** A metadata value; the module stores strings and integers. *)
Inductive mval :=
  | MStr (s : str)
  | MInt (n : Z).

#[global] Instance mval_eq_dec : EqDecision mval.
Proof. solve_decision. Defined.

(** A metadata dict, keyed by field name. *)
Abbreviation metadata := (gmap string mval).

(** An embedding vector: [List[float]]. *)
Definition embedding := list float.

(** What [collection.get(...)] returns; a missing ([None]) list is the
    empty list, which the module tests the same way. *)
Record get_result := {
  g_ids : list str;
  g_metadatas : list (option metadata);
}.

(** [query_texts=[...]] or [query_embeddings=[...]] *)
Inductive query_input :=
  | QueryTexts (texts : list str)
  | QueryEmbeddings (vectors : list embedding).

Section Scores.

(** The numeric type of distances, similarities and thresholds. *)
Context {R : Type}.

(** What [collection.query(...)] returns: one row per query. A missing
    ([None]) field is the empty list: both are falsy, and indexing
    either raises. *)
Record query_result := {
  q_ids : list (list str);
  q_documents : list (list str);
  q_metadatas : list (list metadata);
  q_distances : list (list R);
}.

(** One entry of the list [search_similar] returns. *)
Record search_result := {
  r_id : str;
  r_content : str;
  r_metadata : metadata;
  r_similarity : R;
  r_distance : R;
}.

End Scores.
Arguments query_result R : clear implicits.
Arguments search_result R : clear implicits.

(** The arithmetic [search_similar] does on scores: the constants [0]
    and [1.0], subtraction, and the comparisons. *)
Class Scalar (R : Type) := {
  zero : R;
  one : R;
  sub : R -> R -> R;
  leb : R -> R -> bool;
  ltb : R -> R -> bool;
}.

(** [a >= b] *)
Definition geb {R} `{Scalar R} (a b : R) : bool := leb b a.

(** Python's [float]: IEEE 754 binary64. *)
#[global] Instance float_scalar : Scalar float := {
  zero := 0%float;
  one := 1%float;
  sub := PrimFloat.sub;
  leb := PrimFloat.leb;
  ltb := PrimFloat.ltb;
}.

(** Exact integer arithmetic. *)
Definition Z_scalar : Scalar Z := {|
  zero := 0;
  one := 1;
  sub := Z.sub;
  leb := Z.leb;
  ltb := Z.ltb;
|}.

(** ** Capabilities *)

(** A [pathlib.Path], by what the module reads off it. *)
Record path := {
  path_str : str;       (* str(p) *)
  path_name : str;      (* p.name *)
}.

(** The host: file system, clock and [hashlib]. *)
Class Host (W : Type) := {
  path_exists : path -> M W bool;               (* p.exists() *)
  path_absolute : path -> M W str;              (* str(p.absolute()) *)
  read_text : path -> M W str;                  (* open(p, 'r').read() *)
  md5_hexdigest : str -> str;                   (* hashlib.md5(s.encode()).hexdigest() *)
  now_isoformat : M W str;                      (* datetime.now().isoformat() *)
}.

(** The collection, as far as adding and removing use it. *)
Class Collection (W : Type) := {
  (* collection.get(ids=ids) *)
  collection_get : list str -> M W get_result;
  (* collection.get(where={key: {"$eq": value}}) *)
  collection_get_where : string -> str -> M W get_result;
  (* collection.upsert(ids, documents, metadatas[, embeddings]) *)
  collection_upsert :
    list str -> list str -> list metadata ->
    option (list (option embedding)) -> M W unit;
  (* collection.delete(ids=ids) *)
  collection_delete : list str -> M W unit;
}.

(** The collection's nearest-neighbour query:
    [collection.query(..., n_results=n, include=[documents, metadatas,
    distances])]. *)
Class Index (R W : Type) := {
  collection_query : query_input -> Z -> M W (query_result R);
}.

(** The [transcriber] argument: an object that may or may not have a
    [get_embedding] method, which returns a vector or [None]. *)
Record transcriber (W : Type) := {
  get_embedding : option (str -> M W (option embedding));
}.
Arguments get_embedding {W} t.

(** ** The index manager *)

Module VectorStoreManager.

(** Truth value of a list. *)
Definition nonempty {A} (xs : list A) : bool :=
  match xs with [] => false | _ :: _ => true end.

(** [f"{file_id}_{i}"] *)
Definition chunk_id (file_id : str) (i : nat) : str :=
  file_id ++ str_of "_" ++ str_of (pretty i).

(** [enumerate(xs)] *)
Definition enumerate {A} (xs : list A) : list (nat * A) :=
  imap (fun i x => (i, x)) xs.

Section Manager.

Context {W : Type}.

(** [self.chunk_text(content)], with the default parameters; running
    out of fuel stands for a loop that does not end. *)
Definition call_chunk_text (fuel : nat) (content : str) : M W (list str) :=
  match Chunker.chunk_text fuel content
          Chunker.default_chunk_size Chunker.default_chunk_overlap with
  | Some chunks => ret chunks
  | None => diverge
  end.

(** [existing['metadatas'][0].get('content_hash')]: the first metadata
    may be [None], which has no [get]. *)
Definition first_content_hash (metadatas : list (option metadata))
    : M W (option mval) :=
  (m <- item metadatas 0 ;;
   match m with
   | Some d => ret (d !! "content_hash")
   | None => raise AttributeError
   end)%py.

Section AddRemove.

Context `{!Host W, !Collection W}.

(** The metadata dict built for chunk [i]. *)
Definition chunk_metadata (transcript_path : path) (content_hash : str)
    (total : nat) (i : nat) (chunk : str) : M W metadata :=
  (added_date <- now_isoformat ;;
   ret (list_to_map
          [("source_file", MStr (path_str transcript_path));
           ("file_name", MStr (path_name transcript_path));
           ("chunk_index", MInt (Z.of_nat i));
           ("total_chunks", MInt (Z.of_nat total));
           ("content_hash", MStr content_hash);
           ("added_date", MStr added_date);
           ("chunk_length", MInt (len chunk))]))%py.

(** The embedding step: one call per chunk, in order; any exception
    drops all embeddings of this add. *)
Definition embed_chunks (t : option (transcriber W)) (chunks : list str)
    : M W (option (list (option embedding))) :=
  match t with
  | Some t =>
      match get_embedding t with
      | Some get =>
          try_except
            (embeddings <- for_each get chunks ;; ret (Some embeddings))%py
            (fun _ => ret None)
      | None => ret None
      end
  | None => ret None
  end.

Definition add_transcript (fuel : nat) (transcript_path : path)
    (t : option (transcriber W)) : M W bool :=
  try_except
    (found <- path_exists transcript_path ;;
     if negb found then ret false else
     raw <- read_text transcript_path ;;
     let content := strip raw in
     if negb (truthy content) then ret false else
     file_id <- path_absolute transcript_path ;;
     let content_hash := md5_hexdigest content in
     existing <- collection_get [file_id] ;;
     up_to_date <-
       (if nonempty (g_ids existing) && nonempty (g_metadatas existing) then
          existing_hash <- first_content_hash (g_metadatas existing) ;;
          ret (bool_decide (existing_hash = Some (MStr content_hash)))
        else ret false) ;;
     if (up_to_date : bool) then ret true else
     chunks <- call_chunk_text fuel content ;;
     embeddings <- embed_chunks t chunks ;;
     let chunk_ids := imap (fun i _ => chunk_id file_id i) chunks in
     metadatas <-
       for_each
         (fun ic => chunk_metadata transcript_path content_hash
                      (length chunks) ic.1 ic.2)
         (enumerate chunks) ;;
     (match embeddings with
      | Some (_ :: _) =>
          collection_upsert chunk_ids chunks metadatas embeddings
      | _ =>
          collection_upsert chunk_ids chunks metadatas None
      end) ;;;
     ret true)%py
    (fun _ => ret false).

Definition remove_transcript (transcript_path : path) : M W bool :=
  try_except
    (file_id <- path_absolute transcript_path ;;
     results <- collection_get_where "source_file" (path_str transcript_path) ;;
     if nonempty (g_ids results) then
       collection_delete (g_ids results) ;;; ret true
     else ret false)%py
    (fun _ => ret false).

End AddRemove.

Section Search.

Context {R : Type} `{!Scalar R, !Index R W}.

(** [results['distances'][0][i] if results['distances'] else 0] *)
Definition distance_at (results : query_result R) (i : nat) : M W R :=
  if nonempty (q_distances results) then
    (row <- item (q_distances results) 0 ;; item row i)%py
  else ret zero.

(** The [for i, doc_id in enumerate(results['ids'][0])] loop, from
    position [i] on, appending to [search_results]. *)
Fixpoint collect (results : query_result R) (threshold : R)
    (i : nat) (ids : list str) (search_results : list (search_result R))
    : M W (list (search_result R)) :=
  match ids with
  | [] => ret search_results
  | doc_id :: ids' =>
      (distance <- distance_at results i ;;
       let similarity := sub one distance in
       if geb similarity threshold then
         documents <- item (q_documents results) 0 ;;
         content <- item documents i ;;
         metadatas <- item (q_metadatas results) 0 ;;
         meta <- item metadatas i ;;
         collect results threshold (S i) ids'
           (search_results ++
              [{| r_id := doc_id; r_content := content; r_metadata := meta;
                  r_similarity := similarity; r_distance := distance |}])
       else collect results threshold (S i) ids' search_results)%py
  end.

(** The neighbours of the first (only) query: [results['ids'][0]] when
    both it and [results['ids']] are non-empty. *)
Definition neighbours (results : query_result R) : list str :=
  match q_ids results with
  | ids :: _ => ids
  | [] => []
  end.

(** The part of [search_similar] that calls the collection. *)
Definition run_query (query : str) (limit : Z) (t : option (transcriber W))
    : M W (query_result R) :=
  match t with
  | Some t =>
      (query_embedding <-
         match get_embedding t with
         | Some get => get query
         | None => raise AttributeError
         end ;;
       match query_embedding with
       | Some (x :: v) => collection_query (QueryEmbeddings [x :: v]) limit
       | _ => collection_query (QueryTexts [query]) limit
       end)%py
  | None => collection_query (QueryTexts [query]) limit
  end.

Definition search_similar (query : str) (limit : Z) (threshold : R)
    (t : option (transcriber W)) : M W (list (search_result R)) :=
  try_except
    (results <- run_query query limit t ;;
     collect results threshold 0 (neighbours results) [])%py
    (fun _ => ret []).

End Search.

End Manager.

End VectorStoreManager.

(** ** A reference world

    The capabilities the manager is run against in the statements about
    stored chunks: an in-memory collection whose [upsert] inserts or
    overwrites by id, a file table, a ticking clock, and an embedding
    provider that records every text it is asked to embed. *)

Module Reference.

Record entry := {
  e_document : str;
  e_metadata : metadata;
  e_embedding : option embedding;
}.

Record world := {
  w_cwd : str;                    (* the working directory *)
  w_files : gmap str str;         (* absolute path to file content *)
  w_ticks : nat;                  (* the clock *)
  w_store : gmap str entry;       (* the collection: id to entry *)
  w_embedded : list str;          (* texts sent for embedding, oldest first *)
}.

Definition set_store (store : gmap str entry) (w : world) : world :=
  {| w_cwd := w_cwd w; w_files := w_files w; w_ticks := w_ticks w;
     w_store := store; w_embedded := w_embedded w |}.

Definition set_ticks (n : nat) (w : world) : world :=
  {| w_cwd := w_cwd w; w_files := w_files w; w_ticks := n;
     w_store := w_store w; w_embedded := w_embedded w |}.

Definition set_embedded (log : list str) (w : world) : world :=
  {| w_cwd := w_cwd w; w_files := w_files w; w_ticks := w_ticks w;
     w_store := w_store w; w_embedded := log |}.

(** An edit of the file at an absolute path, between two calls. *)
Definition write_file (abs : str) (content : str) (w : world) : world :=
  {| w_cwd := w_cwd w; w_files := <[abs := content]> (w_files w);
     w_ticks := w_ticks w; w_store := w_store w;
     w_embedded := w_embedded w |}.

(** [Path.absolute()]: an absolute path is kept, a relative one is
    joined to the working directory; nothing is normalised. *)
Definition absolute (cwd : str) (p : path) : str :=
  match path_str p with
  | 47%N :: _ => path_str p
  | _ => cwd ++ str_of "/" ++ path_str p
  end.

Definition host (digest : str -> str) : Host world := {|
  path_exists p := fun w =>
    Return (bool_decide (is_Some (w_files w !! absolute (w_cwd w) p))) w;
  path_absolute p := fun w => Return (absolute (w_cwd w) p) w;
  read_text p := fun w =>
    match w_files w !! absolute (w_cwd w) p with
    | Some content => Return content w
    | None => Raise OSError w
    end;
  md5_hexdigest := digest;
  now_isoformat := fun w =>
    Return (str_of (pretty (w_ticks w))) (set_ticks (S (w_ticks w)) w);
|}.

(** The rows of the store among [ids], in the order asked. *)
Definition rows_of (store : gmap str entry) (ids : list str)
    : list (str * entry) :=
  omap (fun id => (fun e => (id, e)) <$> store !! id) ids.

(** The rows of the store whose metadata field [key] is the string
    [value]. *)
Definition rows_where (store : gmap str entry) (key : string) (value : str)
    : list (str * entry) :=
  filter (fun r => e_metadata r.2 !! key = Some (MStr value))
         (map_to_list store).

Definition as_get_result (rows : list (str * entry)) : get_result :=
  {| g_ids := map fst rows;
     g_metadatas := map (fun r => Some (e_metadata r.2)) rows |}.

(** Insert or overwrite, row by row. *)
Fixpoint upsert_rows (ids documents : list str) (metadatas : list metadata)
    (embeddings : list (option embedding)) (store : gmap str entry)
    : gmap str entry :=
  match ids, documents, metadatas, embeddings with
  | id :: ids', d :: documents', m :: metadatas', e :: embeddings' =>
      upsert_rows ids' documents' metadatas' embeddings'
        (<[id := {| e_document := d; e_metadata := m; e_embedding := e |}]>
           store)
  | _, _, _, _ => store
  end.

(** The arguments of an upsert are well formed when the lists have one
    length and every embedding given is a vector. The reference
    collection asks no more: it has no fixed dimension and no largest
    batch. *)
Definition well_formed (ids documents : list str) (metadatas : list metadata)
    (embeddings : option (list (option embedding))) : bool :=
  (length documents =? length ids)%nat
  && (length metadatas =? length ids)%nat
  && match embeddings with
     | Some es =>
         (length es =? length ids)%nat
         && forallb (fun e => bool_decide (is_Some e)) es
     | None => true
     end.

Definition collection : Collection world := {|
  collection_get ids := fun w =>
    Return (as_get_result (rows_of (w_store w) ids)) w;
  collection_get_where key value := fun w =>
    Return (as_get_result (rows_where (w_store w) key value)) w;
  collection_upsert ids documents metadatas embeddings := fun w =>
    if well_formed ids documents metadatas embeddings then
      Return tt
        (set_store
           (upsert_rows ids documents metadatas
              (default (replicate (length ids) None) embeddings)
              (w_store w)) w)
    else Raise ValueError w;
  collection_delete ids := fun w =>
    Return tt (set_store (foldr delete (w_store w) ids) w);
|}.

(** An embedding provider that answers with [answer] and records the
    texts it is given. *)
Definition recording (answer : str -> option embedding) : transcriber world :=
  {| get_embedding := Some (fun text w =>
       Return (answer text) (set_embedded (w_embedded w ++ [text]) w)) |}.

(** The manager's operations, run on this world. *)
Definition add (digest : str -> str) :=
  @VectorStoreManager.add_transcript world (host digest) collection.

Definition remove (digest : str -> str) :=
  @VectorStoreManager.remove_transcript world (host digest) collection.

Definition get_where : string -> str -> M world get_result :=
  @collection_get_where world collection.

Definition get : list str -> M world get_result :=
  @collection_get world collection.

(** A scenario: one transcript, [a.txt] in [/w], not yet indexed. *)
Definition memo : path :=
  {| path_str := str_of "a.txt"; path_name := str_of "a.txt" |}.

Definition memo_id : str := str_of "/w/a.txt".

Definition memo_text : str :=
  str_of "Alice discussed the Q3 roadmap and budget.".

Definition world_with (content : str) : world :=
  {| w_cwd := str_of "/w"; w_files := {[ memo_id := content ]};
     w_ticks := 0; w_store := ∅; w_embedded := [] |}.

Definition half (_ : str) : option embedding := Some [0.5%float].

(** 600 letters: two chunks. One letter: one chunk. *)
Definition long_text : str := replicate 600 97%N.
Definition short_text : str := [97%N].

(** Whether an id is in the store, and a metadata field of the chunk
    stored under it. *)
Definition stored (store : gmap str entry) (id : str) : bool :=
  match store !! id with
  | Some _ => true
  | None => false
  end.

Definition field (store : gmap str entry) (id : str) (key : string)
    : option mval :=
  store !! id ≫= fun e => e_metadata e !! key.

(** The transcript-record invariant for one source file: the chunks
    stored under [file_id] are exactly those with indices [0 .. n-1],
    for some [n], and they carry one and the same content hash. *)
Definition record_ok (store : gmap str entry) (file_id : str) : Prop :=
  exists (n : nat) (h : mval),
    forall i : nat,
      ((i < n)%nat ->
         field store (VectorStoreManager.chunk_id file_id i) "chunk_index"
         = Some (MInt (Z.of_nat i))
         /\ field store (VectorStoreManager.chunk_id file_id i) "content_hash"
            = Some h)
      /\ ((n <= i)%nat ->
            stored store (VectorStoreManager.chunk_id file_id i) = false).

(** The memo indexed once, and indexed a second time without a change
    to the file, with an embedding provider. *)
Definition once (digest : str -> str) (fuel : nat) : world :=
  after (add digest fuel memo (Some (recording half))) (world_with memo_text).

Definition twice (digest : str -> str) (fuel : nat) : world :=
  after (add digest fuel memo (Some (recording half))) (once digest fuel).

(** The memo indexed with the long text, then edited to the short text,
    then indexed again. *)
Definition indexed_long (digest : str -> str) : world :=
  after (add digest 2 memo None) (world_with long_text).

Definition edited (digest : str -> str) : world :=
  write_file memo_id short_text (indexed_long digest).

Definition indexed_short (digest : str -> str) : world :=
  after (add digest 2 memo None) (edited digest).



End Reference.

(** An index whose query answers from a fixed table, cut to
    [n_results] neighbours. *)
Module Scripted.

Definition cut {R} (n : Z) (answer : query_result R) : query_result R :=
  {| q_ids := map (take (Z.to_nat n)) (q_ids answer);
     q_documents := map (take (Z.to_nat n)) (q_documents answer);
     q_metadatas := map (take (Z.to_nat n)) (q_metadatas answer);
     q_distances := map (take (Z.to_nat n)) (q_distances answer) |}.

Definition index {R} (answer : query_result R) : Index R unit :=
  {| collection_query _ n := ret (cut n answer) |}.


(** Three neighbours with distances, as Python floats; the two that a
    threshold of 0.25 keeps. *)
Definition notes : query_result float :=
  {| q_ids := [[str_of "a_0"; str_of "b_0"; str_of "c_0"]];
     q_documents := [[str_of "alpha"; str_of "beta"; str_of "gamma"]];
     q_metadatas := [[∅; ∅; ∅]];
     q_distances := [[0.125%float; 0.5%float; 0.875%float]] |}.

Definition kept : list (search_result float) :=
  [ {| r_id := str_of "a_0"; r_content := str_of "alpha"; r_metadata := ∅;
       r_similarity := 0.875%float; r_distance := 0.125%float |};
    {| r_id := str_of "b_0"; r_content := str_of "beta"; r_metadata := ∅;
       r_similarity := 0.5%float; r_distance := 0.5%float |} ].

(** Two neighbours, no distances. *)
Definition bare : query_result float :=
  {| q_ids := [[str_of "a_0"; str_of "b_0"]];
     q_documents := [[str_of "alpha"; str_of "beta"]];
     q_metadatas := [[∅; ∅]];
     q_distances := [] |}.

Definition bare_out : list (search_result float) :=
  [ {| r_id := str_of "a_0"; r_content := str_of "alpha"; r_metadata := ∅;
       r_similarity := 1%float; r_distance := 0%float |};
    {| r_id := str_of "b_0"; r_content := str_of "beta"; r_metadata := ∅;
       r_similarity := 1%float; r_distance := 0%float |} ].

(** Three neighbours with exact integer distances. *)
Definition ranks : query_result Z :=
  {| q_ids := [[str_of "a_0"; str_of "b_0"; str_of "c_0"]];
     q_documents := [[str_of "alpha"; str_of "beta"; str_of "gamma"]];
     q_metadatas := [[∅; ∅; ∅]];
     q_distances := [[0; 1; 3]] |}.

End Scripted.

(** ** What a search result is built from *)

Module SearchDefs.
Section Defs.
Context {R : Type} `{!Scalar R}.

(** The distance, document and metadata a query result holds for
    neighbour [j] of its first row. *)
Definition reported (qr : query_result R) (j : nat) : option R :=
  q_distances qr !! 0%nat ≫= fun row => row !! j.

Definition document_at (qr : query_result R) (j : nat) : option str :=
  q_documents qr !! 0%nat ≫= fun row => row !! j.

Definition metadata_at (qr : query_result R) (j : nat) : option metadata :=
  q_metadatas qr !! 0%nat ≫= fun row => row !! j.

(** The distance the manager works with: the reported one, or [0] when
    the result has no distances. *)
Definition distance_of (qr : query_result R) (j : nat) : option R :=
  if VectorStoreManager.nonempty (q_distances qr) then reported qr j
  else Some zero.

(** [r] is the search result built from neighbour [j] of [qr], kept
    under [threshold]. *)
Definition built_from (qr : query_result R) (threshold : R) (j : nat)
    (r : search_result R) : Prop :=
  VectorStoreManager.neighbours qr !! j = Some (r_id r)
  /\ distance_of qr j = Some (r_distance r)
  /\ r_similarity r = sub one (r_distance r)
  /\ geb (r_similarity r) threshold = true
  /\ document_at qr j = Some (r_content r)
  /\ metadata_at qr j = Some (r_metadata r).



End Defs.
End SearchDefs.

(** ** How far an add gets *)

Module AddDefs.
Import VectorStoreManager.


(** The ids of the chunks of a file. *)
Definition chunk_ids (file_id : str) (chunks : list str) : list str :=
  imap (fun i _ => chunk_id file_id i) chunks.

Section Reach.
Context {W : Type} `{!Host W, !Collection W}.




End Reach.

End AddDefs.

(** ** The reference world: what an add stores *)

Module ReferenceDefs.
Import VectorStoreManager Reference.

(** The metadata of chunk [i], as [add_transcript] builds it. *)
Definition chunk_fields (p : path) (content_hash : str) (total i : nat)
    (added_date : str) (chunk : str) : metadata :=
  list_to_map
    [("source_file", MStr (path_str p));
     ("file_name", MStr (path_name p));
     ("chunk_index", MInt (Z.of_nat i));
     ("total_chunks", MInt (Z.of_nat total));
     ("content_hash", MStr content_hash);
     ("added_date", MStr added_date);
     ("chunk_length", MInt (len chunk))].

(** The entry stored for chunk [i] of [chunks], when the clock stood at
    [tick] before the add. *)
Definition chunk_entry (p : path) (content_hash : str) (chunks : list str)
    (tick i : nat) (chunk : str) (vector : option embedding) : entry :=
  {| e_document := chunk;
     e_metadata :=
       chunk_fields p content_hash (length chunks) i
         (str_of (pretty (tick + i)%nat)) chunk;
     e_embedding := vector |}.

(** The memo already recorded under its bare file id, with the content
    hash of its current text (the fingerprint being the text itself). *)
Definition marked : world :=
  {| w_cwd := str_of "/w"; w_files := {[ memo_id := memo_text ]};
     w_ticks := 7;
     w_store :=
       {[ memo_id :=
            {| e_document := memo_text;
               e_metadata := {[ "content_hash" := MStr memo_text ]};
               e_embedding := None |} ]};
     w_embedded := [] |}.

End ReferenceDefs.

(** ** Voice search *)

Module VoiceDefs.
Import VectorStoreManager.

(** The [transcriber] argument of [voice_search]: an object that may or
    may not have a [transcribe_audio] method, which returns the text or
    [None]. *)
Record audio_transcriber (W : Type) := {
  transcribe_audio : option (path -> M W (option str));
}.
Arguments transcribe_audio {W} a.

Section Voice.
Context {W R : Type} `{!Scalar R, !Index R W}.

(** [search_similar(query_text)]: limit 5, threshold 0.0, no
    transcriber. *)
Definition default_limit : Z := 5.

Definition voice_search (audio_query_path : path) (t : audio_transcriber W)
    : M W (list (search_result R)) :=
  try_except
    (query_text <-
       match transcribe_audio t with
       | Some transcribe => transcribe audio_query_path
       | None => raise AttributeError
       end ;;
     match query_text with
     | Some (c :: s) => search_similar (c :: s) default_limit zero None
     | _ => ret []
     end)%py
    (fun _ => ret []).

End Voice.



(** A result of the query with two neighbours and one distance. *)
Definition short_row : query_result float :=
  {| q_ids := [[str_of "a_0"; str_of "b_0"]];
     q_documents := [[str_of "alpha"; str_of "beta"]];
     q_metadatas := [[∅; ∅]];
     q_distances := [[0.125%float]] |}.


End VoiceDefs.

(** ** Statistics of the collection *)

Module Statistics.
Import VectorStoreManager.

(** The collection, as far as the statistics use it. With
    [include=['metadatas']] the result of [get] holds a list of
    metadatas. *)
Class Sampling (W : Type) := {
  (* collection.count() *)
  collection_count : M W Z;
  (* collection.get(limit=n, include=['metadatas']) *)
  collection_get_limit : Z -> M W get_result;
}.

(** A number of the statistics: an [int], or the [float] that the true
    division [a / b] of two [int]s gives. *)
Inductive number :=
  | NInt (z : Z)
  | NQuot (a b : Z).

(** The dict [get_collection_stats] returns: the four statistics, or
    [{'error': str(e)}]. *)
Inductive stats :=
  | Stats (total_chunks unique_files sample_size : Z)
          (avg_chunks_per_file : number)
  | StatsError (e : exn).

(** [len(xs)] of a list or a set. *)
Definition count_of {A} (xs : list A) : Z := Z.of_nat (length xs).

(** [metadata.get('source_file', '')]; [None] has no [get]. *)
Definition source_file_of (m : option metadata) : option mval :=
  match m with
  | Some d => Some (default (MStr []) (d !! "source_file"))
  | None => None
  end.

Section Stats.
Context {W : Type} `{!Sampling W}.

(** The [for metadata in sample['metadatas']] loop: the values added to
    the set [unique_files], in the order met. *)
Definition sampled_files (metadatas : list (option metadata))
    : M W (list mval) :=
  for_each
    (fun m =>
       match source_file_of m with
       | Some v => ret v
       | None => raise AttributeError
       end)
    metadatas.

Definition get_collection_stats : M W stats :=
  try_except
    (count <- collection_count ;;
     let sample_size := Z.min 100 count in
     if 0 <? count then
       sample <- collection_get_limit sample_size ;;
       files <- sampled_files (g_metadatas sample) ;;
       let unique_files := remove_dups files in
       ret (Stats count (count_of unique_files) sample_size
              (if nonempty unique_files
               then NQuot count (count_of unique_files)
               else NInt 0))
     else ret (Stats 0 0 0 (NInt 0)))%py
    (fun e => ret (StatsError e)).

End Stats.

(** The reference collection counts its entries, and samples the first
    [n] of them. *)
Definition sampling : Sampling Reference.world := {|
  collection_count := fun w =>
    Return (Z.of_nat (size (Reference.w_store w))) w;
  collection_get_limit n := fun w =>
    Return (Reference.as_get_result
              (take (Z.to_nat n) (map_to_list (Reference.w_store w)))) w;
|}.

(** The memo indexed with its long text: two chunks, one file. *)
Definition one_memo : Reference.world :=
  Reference.indexed_long (fun s => s).

End Statistics.

(** ** Rebuilding the index *)

Module Rebuilding.
Import VectorStoreManager.

(** What [rebuild_index] uses besides the capabilities of
    [add_transcript]: the ChromaDB client, and the directory listing. *)
Class Workspace (W : Type) := {
  (* self.client.delete_collection("transcripts") *)
  delete_collection : M W unit;
  (* self.collection = self.client.create_collection(name="transcripts", ...) *)
  create_collection : M W unit;
  (* list(transcripts_dir.glob(pattern)) *)
  glob : path -> string -> M W (list path);
}.

Section Rebuild.
Context {W : Type} `{!Host W, !Collection W, !Workspace W}.

(** The [for transcript_file in transcript_files] loop. *)
Fixpoint add_all (fuel : nat) (transcript_files : list path)
    (t : option (transcriber W)) (success_count : Z) : M W Z :=
  match transcript_files with
  | [] => ret success_count
  | transcript_file :: rest =>
      (added <- add_transcript fuel transcript_file t ;;
       add_all fuel rest t
         (if (added : bool) then success_count + 1 else success_count))%py
  end.

Definition rebuild_index (fuel : nat) (transcripts_dir : path)
    (t : option (transcriber W)) : M W bool :=
  try_except
    (delete_collection ;;;
     create_collection ;;;
     txt <- glob transcripts_dir "*.txt" ;;
     md <- glob transcripts_dir "*.md" ;;
     success_count <- add_all fuel (txt ++ md) t 0 ;;
     ret (0 <? success_count))%py
    (fun _ => ret false).

End Rebuild.

(** On the reference world, deleting the collection empties the store,
    and the directory listing is a given table. *)
Definition workspace (listing : path -> string -> list path)
    : Workspace Reference.world := {|
  delete_collection := fun w => Return tt (Reference.set_store ∅ w);
  create_collection := ret tt;
  glob dir pattern := ret (listing dir pattern);
|}.

(** [rebuild_index], run on the reference world. *)
Definition rebuild (digest : str -> str)
    (listing : path -> string -> list path) :=
  @rebuild_index Reference.world (Reference.host digest) Reference.collection
    (workspace listing).

(** The transcripts of a listing. *)
Definition listed (listing : path -> string -> list path) (dir : path)
    : list path :=
  listing dir "*.txt" ++ listing dir "*.md".

(** A readable transcript of the world: the text of the file, and the
    chunks of its trimmed text. *)
Definition transcript (fuel : nat) (w : Reference.world) (f : path)
    (raw : str) (chunks : list str) : Prop :=
  Reference.w_files w !! Reference.absolute (Reference.w_cwd w) f = Some raw
  /\ truthy (strip raw) = true
  /\ Chunker.chunk_text fuel (strip raw)
       Chunker.default_chunk_size Chunker.default_chunk_overlap = Some chunks.

(** What [glob] promises of a listed file: its name ends in [.txt] or
    in [.md]. *)
Definition transcript_name (f : path) : Prop :=
  exists stem,
    path_str f = stem ++ str_of ".txt" \/ path_str f = stem ++ str_of ".md".

(** The entry stored for chunk [i] of a transcript carries the chunk,
    its index and the hash of the trimmed text. *)
Definition entry_of (digest : str -> str) (raw : str) (i : nat)
    (chunk : str) (e : Reference.entry) : Prop :=
  Reference.e_document e = chunk
  /\ Reference.e_metadata e !! "chunk_index" = Some (MInt (Z.of_nat i))
  /\ Reference.e_metadata e !! "content_hash"
     = Some (MStr (digest (strip raw))).

(** The store holds the chunks of the transcripts among [files], and
    nothing else. *)
Definition holds (digest : str -> str) (fuel : nat) (w : Reference.world)
    (files : list path) (store : gmap str Reference.entry) : Prop :=
  (forall id e,
      store !! id = Some e ->
      exists f raw chunks (i : nat) chunk,
        f ∈ files /\ transcript fuel w f raw chunks
        /\ chunks !! i = Some chunk
        /\ id = chunk_id (Reference.absolute (Reference.w_cwd w) f) i
        /\ entry_of digest raw i chunk e)
  /\ (forall f raw chunks (i : nat) chunk,
        f ∈ files -> transcript fuel w f raw chunks ->
        chunks !! i = Some chunk ->
        exists e,
          store !! chunk_id (Reference.absolute (Reference.w_cwd w) f) i
          = Some e
          /\ entry_of digest raw i chunk e).

(** Another file of the working directory. *)
Definition other_id : str := str_of "/w/b.txt".

(** A directory, and a listing of it that finds the memo. *)
Definition recordings : path :=
  {| path_str := str_of "."; path_name := str_of "" |}.

Definition finds_memo (dir : path) (pattern : string) : list path :=
  if decide (pattern = "*.txt") then [Reference.memo] else [].

Definition finds_nothing (dir : path) (pattern : string) : list path := [].

(** The world left by the shrunk re-add (chunk 1 is stale), rebuilt. *)
Definition rebuilt : Reference.world :=
  after (rebuild (fun s => s) finds_memo 2 recordings None)
    (Reference.indexed_short (fun s => s)).

(** A decimal digit. *)
Definition is_digit (c : char) : bool := ((48 <=? c) && (c <=? 57))%N.

End Rebuilding.

(** ** The Gemini transcriber (src/dictate/transcription.py) *)

Module GeminiTranscriber.
Import VectorStoreManager.

(** One embedding of a response: its [values], [None] when the
    attribute is missing or [None]. *)
Definition content_embedding := option (list float).

(** What [client.models.embed_content] returns, by what [get_embedding]
    reads off it: [None] for a falsy result, or one without (or with a
    [None]) [embeddings]; else the list of embeddings. *)
Definition embed_response := option (list content_embedding).

(** The Gemini client. *)
Class Client (W : Type) := {
  (* client.models.embed_content(model=..., contents=[text]) *)
  embed_content : str -> M W embed_response;
}.

Section Transcriber.
Context {W : Type} `{!Client W}.

Definition get_embedding (text : str) : M W (option embedding) :=
  try_except
    (if negb (truthy (strip text)) then ret None else
     result <- embed_content text ;;
     match result with
     | Some (embedding :: _) =>
         match embedding with
         | Some (x :: values) => ret (Some (x :: values))
         | _ => ret None
         end
     | _ => ret None
     end)%py
    (fun _ => ret None).

(** The object passed as [transcriber]. *)
Definition gemini : transcriber W :=
  Build_transcriber W (Some get_embedding).

End Transcriber.

End GeminiTranscriber.

(** ** Cleaning a transcription (src/dictate/transcription.py) *)

Module Cleaning.

Definition newline : char := 10%N.

(** [text.split('\n')] *)
Fixpoint split_lines (text : str) : list str :=
  match text with
  | [] => [[]]
  | c :: text' =>
      if (c =? newline)%N then [] :: split_lines text'
      else
        match split_lines text' with
        | line :: lines => (c :: line) :: lines
        | [] => [[c]]
        end
  end.

(** [sep.join(lines)] *)
Fixpoint join (sep : str) (lines : list str) : str :=
  match lines with
  | [] => []
  | [line] => line
  | line :: lines' => line ++ sep ++ join sep lines'
  end.

(** [line.startswith(prefix)] *)
Fixpoint startswith (line prefix : str) : bool :=
  match prefix, line with
  | [], _ => true
  | p :: prefix', c :: line' => (c =? p)%N && startswith line' prefix'
  | _ :: _, [] => false
  end.

Section Clean.

(** [str.lower], the Unicode lower-casing of CPython, is left open:
    what follows holds for any function in its place. *)
Variable lower : str -> str.

(** [line.lower().startswith(('transcription:', 'transcript:',
    'audio transcription:'))] *)
Definition artifact (line : str) : bool :=
  existsb (startswith (lower line))
    [str_of "transcription:"; str_of "transcript:";
     str_of "audio transcription:"].

(** The loop over the lines: the lines appended to [cleaned_lines]. *)
Fixpoint cleaned (lines : list str) : list str :=
  match lines with
  | [] => []
  | line :: lines' =>
      let line := strip line in
      if negb (truthy line) then cleaned lines'
      else if artifact line then cleaned lines'
      else line :: cleaned lines'
  end.

Definition _clean_transcription (text : str) : str :=
  join [newline; newline] (cleaned (split_lines text)).

End Clean.

End Cleaning.

(** ** Python floats: values and rounding

    What the arithmetic of binary64 does, on integers: the value of a
    float in units of [2 ^ -1074], and rounding to nearest, ties to
    even, as [SpecFloat] specifies them. *)

Module Binary64.


(** [x / 2 ^ k], rounded to the nearest integer. *)
Definition rne (x k : Z) : Z :=
  let q := x / 2 ^ k in
  let r := x mod 2 ^ k in
  if 2 * r <? 2 ^ k then q
  else if 2 ^ k <? 2 * r then q + 1
  else if Z.even q then q else q + 1.








End Binary64.

(** ** Facts about strings *)

Lemma lstrip_idem (s : str) : lstrip (lstrip s) = lstrip s.
Proof.
  induction s as [|c s IH]; simpl; [done|].
  destruct (isspace c) eqn:E; [done|]. simpl. by rewrite E.
Qed.

Lemma lstrip_fixed (c : char) (s : str) :
  isspace c = false -> lstrip (c :: s) = c :: s.
Proof. intros E. simpl. by rewrite E. Qed.

(** What [lstrip] leaves is empty or starts with a character that is
    not whitespace. *)
Lemma lstrip_head (s : str) :
  lstrip s = [] \/ exists c t, lstrip s = c :: t /\ isspace c = false.
Proof.
  induction s as [|c s IH]; simpl; [by left|].
  destruct (isspace c) eqn:E; [done|]. right. by exists c, s.
Qed.

Lemma lstrip_snoc_fixed (s : str) (c : char) :
  isspace c = false -> exists t, lstrip (s ++ [c]) = t ++ [c].
Proof.
  intros E. induction s as [|x s IH]; simpl.
  - rewrite E. by exists [].
  - destruct (isspace x); [done|]. by exists (x :: s).
Qed.

Lemma rstrip_idem (s : str) : rstrip (rstrip s) = rstrip s.
Proof. unfold rstrip. by rewrite rev_involutive, lstrip_idem. Qed.

(** [rstrip] keeps a first character that is not whitespace. *)
Lemma rstrip_keeps_head (c : char) (s : str) :
  isspace c = false -> exists t, rstrip (c :: s) = c :: t.
Proof.
  intros E. unfold rstrip. simpl.
  destruct (lstrip_snoc_fixed (rev s) c E) as [t Ht].
  rewrite Ht, rev_app_distr. simpl. by exists (rev t).
Qed.

Lemma rstrip_nil : rstrip [] = [].
Proof. reflexivity. Qed.

(** Trimming twice is trimming once. *)
Lemma strip_idem (s : str) : strip (strip s) = strip s.
Proof.
  unfold strip.
  destruct (lstrip_head s) as [-> | (c & t & -> & E)].
  - reflexivity.
  - destruct (rstrip_keeps_head c t E) as [u Hu].
    rewrite Hu, (lstrip_fixed c u E), <- Hu. apply rstrip_idem.
Qed.

Lemma len_nonneg (s : str) : 0 <= len s.
Proof. unfold len. lia. Qed.

(** ** The chunker: results *)

Module ChunkerFacts.
Import Chunker.

(** A chunk is kept only when it is not empty, and it is kept trimmed. *)
Definition trims_nonempty (c : str) : Prop := truthy (strip c) = true.

Lemma step_keeps_trimmed text size overlap start chunks :
  Forall trims_nonempty chunks ->
  Forall trims_nonempty (step text size overlap start chunks).2.
Proof.
  intros H. unfold step. cbn zeta.
  set (e := if _ <? _ then _ else _).
  destruct (truthy (strip (slice text start e))) eqn:T; simpl; [|done].
  apply Forall_app. split; [done|].
  constructor; [|done]. unfold trims_nonempty. by rewrite strip_idem.
Qed.

Lemma loop_O text size overlap start chunks :
  loop 0 text size overlap start chunks =
  if start <? len text then None else Some chunks.
Proof. reflexivity. Qed.

Lemma loop_S fuel text size overlap start chunks :
  loop (S fuel) text size overlap start chunks =
  if start <? len text then
    loop fuel text size overlap
      (step text size overlap start chunks).1
      (step text size overlap start chunks).2
  else Some chunks.
Proof. reflexivity. Qed.

Lemma loop_keeps_trimmed fuel text size overlap :
  forall start chunks out,
    Forall trims_nonempty chunks ->
    loop fuel text size overlap start chunks = Some out ->
    Forall trims_nonempty out.
Proof.
  induction fuel as [|fuel IH]; intros start chunks out H.
  - rewrite loop_O. destruct (start <? len text); [done|]. by intros [= <-].
  - rewrite loop_S. destruct (start <? len text); [|by intros [= <-]].
    apply IH. by apply step_keeps_trimmed.
Qed.

(** C5. Short-input identity: a text no longer than [chunk_size] comes
    back as the one-element list holding the text itself, untouched (no
    trimming, no word-boundary snapping, no overlap), whatever the
    overlap and however little fuel the loop is given. *)
Theorem chunk_text_short_identity fuel text chunk_size chunk_overlap :
  len text <= chunk_size ->
  chunk_text fuel text chunk_size chunk_overlap = Some [text].
Proof.
  intros H. unfold chunk_text.
  by destruct (Z.leb_spec (len text) chunk_size); [|lia].
Qed.

Lemma chunk_text_short_identity_witness :
  chunk_text 0 (str_of "  Alice discussed the Q3 roadmap and budget. ")
    default_chunk_size default_chunk_overlap
  = Some [str_of "  Alice discussed the Q3 roadmap and budget. "].
Proof.
  apply chunk_text_short_identity. vm_compute. discriminate.
Defined.

(** C4, as stated, fails on short inputs: the empty string and a string
    of blanks are each returned as the single chunk, and each is empty
    after trimming. *)
Lemma chunk_text_emits_blank_chunk :
  chunk_text 0 [] default_chunk_size default_chunk_overlap = Some [[]]
  /\ strip [] = []
  /\ chunk_text 0 (str_of "   ") default_chunk_size default_chunk_overlap
     = Some [str_of "   "]
  /\ strip (str_of "   ") = [].
Proof. by vm_compute. Qed.

(** C4, amended. Every chunk produced by the sliding-window loop (inputs
    longer than [chunk_size]) is non-empty after trimming: a window that
    trims to the empty string is skipped. A short input is returned as
    it is, so its single chunk is non-empty after trimming exactly when
    the input itself is. *)
Theorem chunk_text_no_empty_chunk fuel text chunk_size chunk_overlap out :
  chunk_text fuel text chunk_size chunk_overlap = Some out ->
  chunk_size < len text \/ truthy (strip text) = true ->
  Forall trims_nonempty out.
Proof.
  unfold chunk_text. intros Hrun Hcase.
  destruct (Z.leb_spec (len text) chunk_size) as [Hle|Hgt].
  - injection Hrun as <-. destruct Hcase as [?|Ht]; [lia|].
    by constructor.
  - by eapply loop_keeps_trimmed, Hrun.
Qed.

Lemma chunk_text_no_empty_chunk_witness :
  Forall trims_nonempty
    [str_of "hello world"; str_of "rld and"; str_of "and more";
     str_of "ore things"; str_of "ngs to say"; str_of "y"].
Proof.
  apply (chunk_text_no_empty_chunk 6
           (str_of "hello world and more things to say") 12 3).
  - vm_compute. reflexivity.
  - left. vm_compute. reflexivity.
Defined.

(** On [stuck_text] with the default parameters the second window starts
    at 10, snaps back to the space at 60, and the next start is
    60 - 50 = 10 again: the loop variables never change. *)
Lemma step_stuck chunks :
  step stuck_text default_chunk_size default_chunk_overlap 10 chunks
  = (10, chunks ++ [replicate 50 97%N]).
Proof. by vm_compute. Qed.

Lemma loop_stuck fuel :
  forall chunks,
    loop fuel stuck_text default_chunk_size default_chunk_overlap 10 chunks
    = None.
Proof.
  induction fuel as [|fuel IH]; intros chunks.
  - reflexivity.
  - rewrite loop_S, step_stuck. change (10 <? len stuck_text) with true.
    cbn iota. apply IH.
Qed.

(** C2, at a failing input. With the defaults 500 and 50, [chunk_text]
    never leaves its loop on [stuck_text]: no amount of fuel yields a
    result. The guard [if start <= 0] only catches a next start at or
    before the beginning of the text, not one at or before the current
    start. *)
Theorem chunk_text_never_finishes fuel :
  chunk_text fuel stuck_text default_chunk_size default_chunk_overlap = None.
Proof.
  unfold chunk_text. change (len stuck_text <=? default_chunk_size) with false.
  cbn iota. destruct fuel as [|fuel]; [reflexivity|].
  rewrite loop_S.
  change (0 <? len stuck_text) with true. cbn iota.
  replace (step stuck_text default_chunk_size default_chunk_overlap 0 [])
    with (10, [replicate 60 97%N]) by (by vm_compute).
  apply loop_stuck.
Qed.

End ChunkerFacts.
(** ** The reference world: results *)

Module ReferenceFacts.
Import VectorStoreManager Reference.

Lemma lookup_foldr_delete_list (store : gmap str entry) (ids : list str) (id : str) :
  foldr delete store ids !! id
  = if decide (id ∈ ids) then None else store !! id.
Proof.
  induction ids as [|j ids IH]; simpl.
  - destruct (decide (id ∈ [])) as [H%elem_of_nil|]; done.
  - destruct (decide (j = id)) as [->|Hne].
    + rewrite lookup_delete_eq.
      destruct (decide (id ∈ id :: ids)) as [|Hout]; [done|].
      exfalso. apply Hout. by left.
    + rewrite lookup_delete_ne, IH by done.
      destruct (decide (id ∈ ids)) as [Hin|Hout];
        destruct (decide (id ∈ j :: ids)) as [Hin'|Hout']; try done.
      * exfalso. apply Hout'. by right.
      * apply elem_of_cons in Hin' as [->|?]; done.
Qed.

(** The rows matched by a filter are rows of the store. *)
Lemma elem_of_rows_where store key value id e :
  (id, e) ∈ rows_where store key value
  <-> store !! id = Some e /\ e_metadata e !! key = Some (MStr value).
Proof.
  unfold rows_where. rewrite list_elem_of_filter, elem_of_map_to_list.
  simpl. tauto.
Qed.

Lemma nonempty_elem_of {A} (xs : list A) :
  nonempty xs = true <-> exists x, x ∈ xs.
Proof.
  destruct xs as [|x xs]; simpl; split; try done.
  - by intros [x Hx%elem_of_nil].
  - intros _. exists x. by left.
Qed.

Lemma nonempty_map {A B} (f : A -> B) (xs : list A) :
  nonempty (map f xs) = nonempty xs.
Proof. by destruct xs. Qed.

(** Once the matched ids are deleted, the same filter matches nothing. *)
Lemma rows_where_after_delete store key value :
  rows_where
    (foldr delete store (map fst (rows_where store key value))) key value
  = [].
Proof.
  destruct (rows_where (foldr delete _ _) key value) as [|[id e] rest] eqn:E;
    [done|exfalso].
  assert ((id, e) ∈ rows_where
            (foldr delete store (map fst (rows_where store key value)))
            key value) as Hin by (rewrite E; left).
  apply elem_of_rows_where in Hin as [Hl Hm].
  rewrite lookup_foldr_delete_list in Hl.
  destruct (decide _) as [|Hout]; [done|]. apply Hout.
  apply (list_elem_of_fmap_2' fst _ (id, e)); [|done].
  by apply elem_of_rows_where.
Qed.

(** C8. Remove correctness, on the reference collection.
    [remove_transcript p] returns normally; it returns [true] exactly
    when some stored chunk has [source_file] equal to [str(p)]; in that
    case every matched id, and nothing else, is deleted by the one
    [delete] call, and the same filtered [get] then returns no id; when
    nothing matches it returns [false] and the world is as it was. *)
Theorem remove_transcript_correct (digest : str -> str) (p : path) (w : world) :
  let matched := rows_where (w_store w) "source_file" (path_str p) in
  exists (b : bool) (w' : world),
    remove digest p w = Return b w'
    /\ (b = true <->
        exists id e, w_store w !! id = Some e
          /\ e_metadata e !! "source_file" = Some (MStr (path_str p)))
    /\ (b = true ->
        (forall id,
           w_store w' !! id
           = if decide (id ∈ map fst matched) then None else w_store w !! id)
        /\ get_where "source_file" (path_str p) w'
           = Return {| g_ids := []; g_metadatas := [] |} w')
    /\ (b = false -> w' = w).
Proof.
  intros matched.
  unfold remove, get_where, remove_transcript, try_except, bind. simpl.
  rewrite nonempty_map. fold matched.
  destruct (nonempty matched) eqn:Hne; simpl.
  - eexists true, _. split; [reflexivity|].
    split; [|split; [|done]].
    + split; [|done]. intros _.
      apply nonempty_elem_of in Hne as [[id e] Hin].
      exists id, e. by apply elem_of_rows_where.
    + intros _. split.
      * intros id. apply lookup_foldr_delete_list.
      * simpl. unfold matched. by rewrite rows_where_after_delete.
  - exists false, w. split; [reflexivity|].
    split; [|split; [done|done]].
    split; [done|]. intros (id & e & Hl & Hm).
    assert (nonempty matched = true) as Ht; [|congruence].
    apply nonempty_elem_of. exists (id, e). by apply elem_of_rows_where.
Qed.

Lemma str_of_inj (a b : string) : str_of a = str_of b -> a = b.
Proof.
  unfold str_of. intros H.
  rewrite <- (String.string_of_list_ascii_of_string a),
          <- (String.string_of_list_ascii_of_string b).
  f_equal. revert H.
  generalize (String.list_ascii_of_string a) (String.list_ascii_of_string b).
  induction l as [|x l IH]; intros [|y l']; simpl; try done.
  intros [= Hx Hl]. f_equal; [|by apply IH].
  by rewrite <- (Ascii.ascii_N_embedding x), Hx, Ascii.ascii_N_embedding.
Qed.

(** Chunk ids of one file differ when the indices do. *)
Lemma chunk_id_inj file_id i j :
  chunk_id file_id i = chunk_id file_id j -> i = j.
Proof.
  unfold chunk_id. intros H.
  do 2 apply app_inv_head in H.
  by apply str_of_inj, (inj pretty) in H.
Qed.

(** A store whose ids all lie in [ids] holds nothing under any other id. *)
Lemma stored_outside (store : gmap str entry) (ids : list str) (id : str) :
  forallb (fun k => bool_decide (k ∈ ids)) (map fst (map_to_list store)) = true ->
  id ∉ ids -> stored store id = false.
Proof.
  intros Hall Hout. unfold stored.
  destruct (store !! id) as [e|] eqn:E; [exfalso|done].
  apply elem_of_map_to_list in E.
  rewrite forallb_forall in Hall.
  specialize (Hall id). apply Hout.
  eapply bool_decide_eq_true_1, Hall.
  apply in_map_iff. exists (id, e). split; [done|].
  by apply list_elem_of_In.
Qed.

Lemma chunk_id_beyond file_id (i : nat) :
  (2 <= i)%nat -> chunk_id file_id i ∉ [chunk_id file_id 0; chunk_id file_id 1].
Proof.
  intros Hi Hin.
  apply elem_of_cons in Hin as [H|Hin]; [apply chunk_id_inj in H; lia|].
  apply elem_of_cons in Hin as [H|Hin]; [apply chunk_id_inj in H; lia|].
  by apply elem_of_nil in Hin.
Qed.

(** C1, at a failing input. The transcript is added, and added again
    with the file untouched. The second call looks the file up under the
    bare file id, while the chunks are stored under [file_id_0], ...: it
    finds nothing, sends the chunk to the embedding provider once more,
    and upserts again (the clock is read again and the stored
    [added_date] moves from tick 0 to tick 1). *)
Theorem add_transcript_twice_embeds_twice (digest : str -> str) (fuel : nat) :
  value_of (add digest fuel memo (Some (recording half))
              (world_with memo_text)) = Some true
  /\ w_files (once digest fuel) !! memo_id = Some memo_text
  /\ w_embedded (once digest fuel) = [memo_text]
  /\ field (w_store (once digest fuel)) (chunk_id memo_id 0) "added_date"
     = Some (MStr (str_of "0"))
  /\ value_of (get [memo_id] (once digest fuel))
     = Some {| g_ids := []; g_metadatas := [] |}
  /\ value_of (add digest fuel memo (Some (recording half))
                 (once digest fuel)) = Some true
  /\ w_embedded (twice digest fuel) = [memo_text; memo_text]
  /\ field (w_store (twice digest fuel)) (chunk_id memo_id 0) "added_date"
     = Some (MStr (str_of "1")).
Proof.
  repeat (split; [vm_compute; reflexivity|]).
  vm_compute; reflexivity.
Qed.

(** C3, at a failing input. The transcript is indexed with 600
    characters (two chunks, and the record is in order), then edited
    down to one character and indexed again (one chunk). The second
    upsert overwrites chunk 0 and leaves chunk 1 in place, with the old
    content hash: whenever the fingerprint tells the two contents apart,
    the record of the file is neither empty nor [n] chunks with one
    hash. *)
Theorem add_transcript_shrink_breaks_record (digest : str -> str) :
  digest long_text <> digest short_text ->
  value_of (add digest 2 memo None (world_with long_text)) = Some true
  /\ record_ok (w_store (indexed_long digest)) memo_id
  /\ value_of (add digest 2 memo None (edited digest)) = Some true
  /\ ~ record_ok (w_store (indexed_short digest)) memo_id.
Proof.
  intros Hne.
  split; [vm_compute; reflexivity|].
  split.
  { exists 2%nat, (MStr (digest long_text)). intros i. split.
    - intros Hi.
      destruct i as [|[|i]]; [| |lia]; split; vm_compute; reflexivity.
    - intros Hi.
      apply (stored_outside _ [chunk_id memo_id 0; chunk_id memo_id 1]).
      + vm_compute; reflexivity.
      + by apply chunk_id_beyond. }
  split; [vm_compute; reflexivity|].
  intros (n & h & Hrec).
  assert ((n <= 1)%nat \/ ((0 < n)%nat /\ (1 < n)%nat)) as [Hle|[Hp0 Hp1]]
    by lia.
  - destruct (Hrec 1%nat) as [_ H1]. specialize (H1 Hle).
    vm_compute in H1. discriminate H1.
  - destruct (Hrec 0%nat) as [H0 _]. destruct (Hrec 1%nat) as [H1 _].
    destruct (H0 Hp0) as [_ Hh0]. destruct (H1 Hp1) as [_ Hh1].
    vm_compute in Hh0, Hh1. apply Hne. vm_compute. congruence.
Qed.

Lemma add_transcript_shrink_breaks_record_witness :
  value_of (add (fun s => s) 2 memo None (world_with long_text)) = Some true
  /\ record_ok (w_store (indexed_long (fun s => s))) memo_id
  /\ value_of (add (fun s => s) 2 memo None (edited (fun s => s))) = Some true
  /\ ~ record_ok (w_store (indexed_short (fun s => s))) memo_id.
Proof.
  apply (add_transcript_shrink_breaks_record (fun s => s)).
  vm_compute. discriminate.
Defined.

End ReferenceFacts.

(** ** Facts about the effects *)

(** Indexing reads its argument only. *)
Lemma item_world {W A} (xs : list A) (i : nat) (w w' : W) (x : A) :
  item xs i w = Return x w' -> w' = w /\ xs !! i = Some x.
Proof.
  unfold item. destruct (xs !! i); [|discriminate].
  by intros [= -> ->].
Qed.

(** ** Fail-soft behaviour, for any capabilities *)

Module FailSoft.
Import VectorStoreManager AddDefs.

Lemma try_except_quiet {W A} (body : M W A) (a : A) (w : W) :
  quiet (try_except body (fun _ => ret a) w).
Proof. unfold try_except. by destruct (body w). Qed.


Section AnyCapabilities.

Context {W : Type} `{!Host W, !Collection W}.
Context {R : Type} `{!Scalar R, !Index R W}.

Lemma add_transcript_quiet fuel p t (w : W) :
  quiet (add_transcript fuel p t w).
Proof. apply try_except_quiet. Qed.



(** [add_transcript]: the file is absent, or cannot be looked at. *)
Lemma add_transcript_absent fuel p t (w w1 : W) :
  path_exists p w = Return false w1 ->
  add_transcript fuel p t w = Return false w1.
Proof.
  intros H. unfold add_transcript, try_except, bind. by rewrite H.
Qed.



Lemma add_transcript_empty fuel p t (w w1 w2 : W) raw :
  path_exists p w = Return true w1 ->
  read_text p w1 = Return raw w2 ->
  strip raw = [] ->
  add_transcript fuel p t w = Return false w2.
Proof.
  intros H1 H2 H3. unfold add_transcript, try_except, bind.
  rewrite H1. simpl. rewrite H2, H3. reflexivity.
Qed.




Lemma call_chunk_text_world fuel content (w w' : W) chunks :
  call_chunk_text fuel content w = Return chunks w' ->
  w' = w
  /\ Chunker.chunk_text fuel content
       Chunker.default_chunk_size Chunker.default_chunk_overlap = Some chunks.
Proof.
  unfold call_chunk_text.
  destruct (Chunker.chunk_text _ _ _ _); [|discriminate].
  by intros [= -> ->].
Qed.




Lemma remove_transcript_true p (w w' : W) :
  remove_transcript p w = Return true w' ->
  exists ids w1, nonempty ids = true /\ collection_delete ids w1 = Return tt w'.
Proof.
  unfold remove_transcript, try_except, bind, ret. intros H.
  destruct (path_absolute p w) as [file_id w1| |]; [|discriminate..].
  destruct (collection_get_where _ _ w1) as [results w2| |]; [|discriminate..].
  destruct (nonempty (g_ids results)) eqn:E; [|discriminate].
  destruct (collection_delete _ w2) as [[] w3| |] eqn:E'; [|discriminate..].
  injection H as <-. eauto.
Qed.
















End AnyCapabilities.


End FailSoft.

(** ** Python floats: rounding keeps the order *)

Module Binary64Facts.
Import Binary64.

(** *** Powers of two *)

Lemma pow2_pos k : 0 <= k -> 0 < 2 ^ k.
Proof. intros. apply Z.pow_pos_nonneg; lia. Qed.





(** *** The number of binary digits *)



(** *** Shifting right, with the round and sticky bits *)






(** *** Rounding to nearest, ties to even *)



Lemma rne_exact x k :
  0 <= k -> x mod 2 ^ k = 0 -> rne x k = x / 2 ^ k.
Proof.
  intros Hk H. unfold rne. cbv zeta. rewrite H.
  pose proof (pow2_pos k Hk).
  destruct (Z.ltb_spec (2 * 0) (2 ^ k)); [done|lia].
Qed.



(** *** The value of a float, as an integer *)








(** *** Normalising an exact value *)





(** *** Rounding keeps the order *)






(** *** The order of floats is the order of their values *)





(** *** Subtracting from [1.0] *)




End Binary64Facts.

(** ** Facts about the search *)

Module SearchFacts.
Import VectorStoreManager SearchDefs.

Section AnyIndex.
Context {W R : Type} `{!Scalar R, !Index R W}.

Lemma distance_at_spec (qr : query_result R) j (w w' : W) d :
  distance_at qr j w = Return d w' -> w' = w /\ distance_of qr j = Some d.
Proof.
  unfold distance_at, distance_of, reported, bind, ret.
  destruct (nonempty (q_distances qr)).
  - destruct (item (q_distances qr) 0 w) as [row w1| |] eqn:E1;
      [|discriminate..].
    apply item_world in E1 as [-> E1]. rewrite E1. simpl.
    intros [-> E2]%item_world. done.
  - by intros [= -> ->].
Qed.

(** What the loop adds to [search_results]: one result per neighbour
    kept, in the order of the neighbours. *)
Lemma collect_spec (qr : query_result R) threshold :
  forall ids i acc (w w' : W) out,
    (forall k id, ids !! k = Some id -> neighbours qr !! (i + k)%nat = Some id) ->
    collect qr threshold i ids acc w = Return out w' ->
    w' = w
    /\ exists hits : list (nat * search_result R),
         out = acc ++ map snd hits
         /\ Forall (fun h => (i <= h.1)%nat /\ built_from qr threshold h.1 h.2)
                   hits
         /\ StronglySorted lt (map fst hits)
         /\ (length hits <= length ids)%nat.
Proof.
  induction ids as [|doc_id ids IH]; intros i acc w w' out Hids; simpl.
  - intros [= <- <-]. split; [done|]. exists [].
    rewrite app_nil_r. repeat split; constructor.
  - unfold bind at 1.
    destruct (distance_at qr i w) as [d w1| |] eqn:Ed; [|discriminate..].
    apply distance_at_spec in Ed as [-> Ed].
    assert (forall k id, ids !! k = Some id ->
              neighbours qr !! (S i + k)%nat = Some id) as Hids'.
    { intros k id Hk. specialize (Hids (S k) id Hk).
      by replace (S i + k)%nat with (i + S k)%nat by lia. }
    destruct (geb (sub one d) threshold) eqn:Eg.
    + unfold bind.
      destruct (item (q_documents qr) 0 w) as [docs w1| |] eqn:E1;
        [|discriminate..].
      apply item_world in E1 as [-> E1].
      destruct (item docs i w) as [content w1| |] eqn:E2; [|discriminate..].
      apply item_world in E2 as [-> E2].
      destruct (item (q_metadatas qr) 0 w) as [metas w1| |] eqn:E3;
        [|discriminate..].
      apply item_world in E3 as [-> E3].
      destruct (item metas i w) as [meta w1| |] eqn:E4; [|discriminate..].
      apply item_world in E4 as [-> E4].
      intros H. apply IH in H as (-> & hits & -> & Hall & Hsort & Hlen);
        [|done].
      split; [done|].
      set (r := {| r_id := doc_id; r_content := content; r_metadata := meta;
                   r_similarity := sub one d; r_distance := d |}).
      exists ((i, r) :: hits). simpl.
      split; [by rewrite <- app_assoc|].
      split; [|split; [|lia]].
      * constructor.
        -- split; [done|]. simpl. unfold built_from, document_at, metadata_at.
           rewrite E1, E3. simpl.
           specialize (Hids 0%nat doc_id eq_refl).
           rewrite Nat.add_0_r in Hids. done.
        -- eapply Forall_impl; [exact Hall|].
           intros h [Hle Hb]. split; [lia|done].
      * constructor; [done|].
        apply Forall_fmap. eapply Forall_impl; [exact Hall|].
        intros h [Hle _]. simpl. lia.
    + intros H. apply IH in H as (-> & hits & -> & Hall & Hsort & Hlen);
        [|done].
      split; [done|]. exists hits.
      split; [done|]. split; [|split; [done|simpl; lia]].
      eapply Forall_impl; [exact Hall|].
      intros h [Hle Hb]. split; [lia|done].
Qed.

(** A call of [search_similar] that returns something ran the query,
    and then the loop over its neighbours. *)
Lemma search_similar_run query limit (threshold : R) t (w w' : W) out :
  search_similar query limit threshold t w = Return out w' ->
  out = []
  \/ exists qr,
       run_query query limit t w = Return qr w'
       /\ collect qr threshold 0 (neighbours qr) [] w' = Return out w'.
Proof.
  unfold search_similar, try_except, bind.
  destruct (run_query query limit t w) as [qr w1| |] eqn:Eq.
  - destruct (collect qr threshold 0 (neighbours qr) [] w1)
      as [out1 w2| |] eqn:Ec.
    + intros [= <- <-]. right. exists qr.
      pose proof Ec as Ec'.
      apply collect_spec in Ec' as [-> _]; [|done]. done.
    + intros [= <- _]. by left.
    + discriminate.
  - intros [= <- _]. by left.
  - discriminate.
Qed.

(** The query step hands back what the collection's query returned. *)
Lemma run_query_source query limit t (w w' : W) (qr : query_result R) :
  run_query query limit t w = Return qr w' ->
  exists input w0, collection_query input limit w0 = Return qr w'.
Proof.
  unfold run_query, bind. destruct t as [tr|]; [|eauto].
  destruct (get_embedding tr) as [get|]; [|discriminate].
  destruct (get query w) as [e w1| |]; [|discriminate..].
  destruct e as [[|x v]|]; eauto.
Qed.

(** The results of a run, against the query result they were built
    from. *)
Lemma search_similar_built query limit (threshold : R) t (w w' : W) out :
  search_similar query limit threshold t w = Return out w' ->
  out = []
  \/ exists qr (js : list nat),
       run_query query limit t w = Return qr w'
       /\ StronglySorted lt js
       /\ Forall2 (built_from qr threshold) js out
       /\ (length out <= length (neighbours qr))%nat.
Proof.
  intros [->|(qr & Hq & Hc)]%search_similar_run; [by left|right].
  apply collect_spec in Hc as (_ & hits & -> & Hall & Hsort & Hlen); [|done].
  exists qr, (map fst hits). simpl.
  split; [done|]. split; [done|]. split; [|by rewrite length_map].
  clear Hsort Hlen. induction hits as [|h hits IH]; simpl; [constructor|].
  apply Forall_cons in Hall as [[_ Hb] Hall].
  constructor; [done|by apply IH].
Qed.

End AnyIndex.

(** Comparisons of Python floats: [a <= b] excludes [b < a]. *)
Lemma SFleb_not_ltb x y : SFleb x y = true -> SFltb y x = false.
Proof.
  unfold SFleb, SFltb.
  destruct x as [sx|sx| |sx mx ex], y as [sy|sy| |sy my ey]; simpl;
    try discriminate; try reflexivity;
    try (destruct sx; discriminate || reflexivity);
    try (destruct sy; discriminate || reflexivity);
    try (destruct sx, sy; discriminate || reflexivity).
  assert (Pos.compare_cont Eq my mx = CompOpp (Pos.compare_cont Eq mx my))
    as Hm by (rewrite Pos.compare_cont_antisym; reflexivity).
  rewrite (Z.compare_antisym ex ey), Hm.
  destruct sx, sy; try discriminate; try reflexivity;
    destruct (ex ?= ey)%Z; simpl; try discriminate; try reflexivity;
    destruct (Pos.compare_cont Eq mx my); simpl; discriminate || reflexivity.
Qed.

Lemma float_leb_not_ltb (a b : float) :
  (a <=? b)%float = true -> (b <? a)%float = false.
Proof. rewrite leb_spec, ltb_spec. apply SFleb_not_ltb. Qed.

Section FloatIndex.
Context {W : Type} `{!Index float W}.

(** C6. Threshold filter, with Python floats. Every result returned by
    [search_similar] was built from a neighbour of the result of the
    collection's query: its distance is the one reported for that
    neighbour (0 when the result reports none), its similarity is
    exactly [1.0 - distance], and the similarity is at least the
    threshold, so it is not strictly below it. *)
Theorem search_similar_threshold_filter query limit (threshold : float) t
    (w w' : W) out :
  search_similar query limit threshold t w = Return out w' ->
  Forall (fun r =>
            r_similarity r = (1 - r_distance r)%float
            /\ (threshold <=? r_similarity r)%float = true
            /\ (r_similarity r <? threshold)%float = false) out
  /\ (out = []
      \/ exists qr input w0,
           collection_query input limit w0 = Return qr w'
           /\ Forall (fun r =>
                        exists j, neighbours qr !! j = Some (r_id r)
                                  /\ distance_of qr j = Some (r_distance r))
                     out).
Proof.
  intros [->|(qr & js & Hq & _ & Hb & _)]%search_similar_built.
  - split; [constructor|by left].
  - split.
    + induction Hb as [|j r js out Hjr Hb IH]; constructor; [|done].
      destruct Hjr as (_ & _ & Hs & Hg & _).
      split; [done|]. split; [done|]. by apply float_leb_not_ltb.
    + right. destruct (run_query_source _ _ _ _ _ _ Hq) as (input & w0 & Hc).
      exists qr, input, w0. split; [done|].
      induction Hb as [|j r js out Hjr Hb IH]; constructor; [|done].
      destruct Hjr as (Hid & Hd & _). eauto.
Qed.

(** Without distances and with a threshold of at most [1.0], the loop
    keeps every neighbour that has a document and a metadata. *)
Lemma collect_without_distances (qr : query_result float) threshold :
  q_distances qr = [] ->
  (threshold <=? 1)%float = true ->
  forall ids i acc (w : W),
    (forall k, (k < length ids)%nat ->
       is_Some (document_at qr (i + k)) /\ is_Some (metadata_at qr (i + k))) ->
    exists new,
      collect qr threshold i ids acc w = Return (acc ++ new) w
      /\ map r_id new = ids.
Proof.
  intros Hd Ht. induction ids as [|doc_id ids IH]; intros i acc w Hrows.
  - exists []. by rewrite app_nil_r.
  - destruct (Hrows 0%nat) as [[content Hc] [meta Hm]]; [simpl; lia|].
    rewrite Nat.add_0_r in Hc, Hm.
    unfold document_at in Hc. unfold metadata_at in Hm.
    destruct (q_documents qr !! 0%nat) as [docs|] eqn:E1; [|discriminate].
    destruct (q_metadatas qr !! 0%nat) as [metas|] eqn:E3; [|discriminate].
    simpl in Hc, Hm.
    destruct (IH (S i)
                (acc ++ [{| r_id := doc_id; r_content := content;
                            r_metadata := meta;
                            r_similarity := 1%float;
                            r_distance := 0%float |}]) w)
      as (new & Hnew & Hids).
    { intros k Hk. specialize (Hrows (S k)).
      replace (S i + k)%nat with (i + S k)%nat by lia.
      apply Hrows. simpl. lia. }
    exists ({| r_id := doc_id; r_content := content; r_metadata := meta;
               r_similarity := 1%float; r_distance := 0%float |} :: new).
    split; [|simpl; by rewrite Hids].
    rewrite <- app_assoc in Hnew. simpl in Hnew. rewrite <- Hnew.
    simpl. unfold bind at 1. unfold distance_at. rewrite Hd. simpl.
    change (1 - 0)%float with 1%float. unfold geb. simpl. rewrite Ht.
    unfold bind, item. rewrite E1. simpl. rewrite Hc. simpl.
    rewrite E3. simpl. rewrite Hm. reflexivity.
Qed.

(** C10. Missing-distance default. When the result of the query step
    has no distances (absent or empty), every result [search_similar]
    returns has distance 0 and similarity 1.0; and when the threshold is
    at most 1.0 and the result holds a document and a metadata for each
    neighbour, every neighbour is returned, in order. *)
Theorem search_similar_missing_distances query limit (threshold : float) t
    (w w1 : W) (qr : query_result float) :
  run_query query limit t w = Return qr w1 ->
  q_distances qr = [] ->
  (forall out w', search_similar query limit threshold t w = Return out w' ->
     Forall (fun r => r_distance r = 0%float /\ r_similarity r = 1%float) out)
  /\ ((threshold <=? 1)%float = true ->
      (forall k, (k < length (neighbours qr))%nat ->
         is_Some (document_at qr k) /\ is_Some (metadata_at qr k)) ->
      exists out,
        search_similar query limit threshold t w = Return out w1
        /\ map r_id out = neighbours qr).
Proof.
  intros Hq Hd. split.
  - intros out w' [->|(qr' & js & Hq' & _ & Hb & _)]%search_similar_built;
      [constructor|].
    rewrite Hq in Hq'. injection Hq' as <- <-.
    induction Hb as [|j r js out Hjr Hb IH]; constructor; [|done].
    destruct Hjr as (_ & Hdist & Hs & _).
    unfold distance_of in Hdist. rewrite Hd in Hdist. simpl in Hdist.
    injection Hdist as Hdist. rewrite Hs, <- Hdist. done.
  - intros Ht Hrows.
    destruct (collect_without_distances qr threshold Hd Ht
                (neighbours qr) 0 [] w1) as (new & Hnew & Hids); [done|].
    exists new. split; [|done].
    unfold search_similar, try_except, bind. by rewrite Hq, Hnew.
Qed.


End FloatIndex.

Lemma search_similar_threshold_filter_witness :
  search_similar (Index0 := Scripted.index Scripted.notes)
    (str_of "q") 5 0.25%float None tt = Return Scripted.kept tt
  /\ Forall (fun r =>
               r_similarity r = (1 - r_distance r)%float
               /\ (0.25 <=? r_similarity r)%float = true
               /\ (r_similarity r <? 0.25)%float = false) Scripted.kept
  /\ (Scripted.kept = []
      \/ exists qr input w0,
           collection_query (Index := Scripted.index Scripted.notes)
             input 5 w0 = Return qr tt
           /\ Forall (fun r =>
                        exists j, neighbours qr !! j = Some (r_id r)
                                  /\ distance_of qr j = Some (r_distance r))
                     Scripted.kept).
Proof.
  split; [vm_compute; reflexivity|].
  apply (search_similar_threshold_filter
           (Index0 := Scripted.index Scripted.notes)
           (str_of "q") 5 0.25%float None tt tt Scripted.kept).
  vm_compute; reflexivity.
Defined.

Lemma search_similar_missing_distances_witness :
  run_query (Index0 := Scripted.index Scripted.bare) (str_of "q") 5 None tt
  = Return (Scripted.cut 5 Scripted.bare) tt
  /\ q_distances (Scripted.cut 5 Scripted.bare) = []
  /\ Forall (fun r => r_distance r = 0%float /\ r_similarity r = 1%float)
       Scripted.bare_out
  /\ exists out,
       search_similar (Index0 := Scripted.index Scripted.bare)
         (str_of "q") 5 0.75%float None tt = Return out tt
       /\ map r_id out = neighbours (Scripted.cut 5 Scripted.bare).
Proof.
  split; [reflexivity|]. split; [reflexivity|].
  destruct (search_similar_missing_distances
              (Index0 := Scripted.index Scripted.bare)
              (str_of "q") 5 0.75%float None tt tt
              (Scripted.cut 5 Scripted.bare) eq_refl eq_refl) as [Hall Hsome].
  split.
  - apply (Hall Scripted.bare_out tt). vm_compute; reflexivity.
  - apply Hsome; [reflexivity|].
    intros k Hk. change (k < 2)%nat in Hk.
    destruct k as [|[|k]]; [split; eexists; reflexivity..|lia].
Defined.




End SearchFacts.

(** ** More facts about strings *)

(** Trimming on the left drops a prefix; trimming on the right drops a
    suffix. *)
Lemma lstrip_suffix (s : str) : exists pre, s = pre ++ lstrip s.
Proof.
  induction s as [|c s [pre IH]]; simpl; [by exists []|].
  destruct (isspace c); [|by exists []].
  exists (c :: pre). simpl. by rewrite <- IH.
Qed.

Lemma rstrip_prefix (s : str) : exists post, s = rstrip s ++ post.
Proof.
  unfold rstrip. destruct (lstrip_suffix (rev s)) as [pre H].
  exists (rev pre).
  rewrite <- rev_app_distr, <- H. by rewrite rev_involutive.
Qed.

Lemma strip_infix (s : str) : exists pre post, s = pre ++ strip s ++ post.
Proof.
  unfold strip. destruct (lstrip_suffix s) as [pre H].
  destruct (rstrip_prefix (lstrip s)) as [post H'].
  exists pre, post. by rewrite <- H', <- H.
Qed.

Lemma slice_infix (s : str) (a b : Z) :
  exists pre post, s = pre ++ slice s a b ++ post.
Proof.
  unfold slice. cbn zeta.
  set (a' := Z.to_nat (adjust (len s) a)).
  set (n := Z.to_nat _).
  exists (take a' s), (drop n (drop a' s)).
  by rewrite take_drop, take_drop.
Qed.

Lemma len_app (s t : str) : len (s ++ t) = len s + len t.
Proof. unfold len. rewrite length_app. lia. Qed.

Lemma len_strip_le (s : str) : len (strip s) <= len s.
Proof.
  destruct (strip_infix s) as (pre & post & H).
  rewrite H at 2. rewrite !len_app.
  pose proof (len_nonneg pre). pose proof (len_nonneg post). lia.
Qed.

(** A slice between two indices in order, the first one not negative,
    is no longer than their distance. *)
Lemma len_slice_le (s : str) (a b : Z) :
  0 <= a <= b -> len (slice s a b) <= b - a.
Proof.
  intros H. unfold slice, len, adjust. cbn zeta.
  rewrite length_take.
  destruct (Z.ltb_spec a 0), (Z.ltb_spec b 0); lia.
Qed.

(** [rfind] answers -1 or an index inside the (normalised) range. *)
Lemma rfind_scan_range (c : char) (s : str) (i lo hi acc : Z) :
  rfind_scan c s i lo hi acc = acc
  \/ lo <= rfind_scan c s i lo hi acc < hi.
Proof.
  revert i acc. induction s as [|x s IH]; intros i acc; simpl; [by left|].
  destruct ((lo <=? i) && (i <? hi) && (x =? c)%N) eqn:E.
  - destruct (IH (i + 1) i) as [->|H]; [|by right].
    right. apply andb_true_iff in E as [E _].
    apply andb_true_iff in E as [E1 E2]. lia.
  - apply IH.
Qed.

Lemma rfind_range (c : char) (s : str) (a b : Z) :
  rfind c s a b = -1
  \/ adjust (len s) a <= rfind c s a b < adjust (len s) b.
Proof. apply rfind_scan_range. Qed.

(** Without the character in the string, [rfind] answers -1. *)
Lemma rfind_scan_absent (c : char) (s : str) (i lo hi acc : Z) :
  c ∉ s -> rfind_scan c s i lo hi acc = acc.
Proof.
  revert i acc. induction s as [|x s IH]; intros i acc Hc; simpl; [done|].
  apply not_elem_of_cons in Hc as [Hx Hs].
  rewrite IH by done.
  destruct (N.eqb_spec x c) as [->|_]; [done|].
  by rewrite andb_false_r.
Qed.

Lemma rfind_absent (c : char) (s : str) (a b : Z) :
  c ∉ s -> rfind c s a b = -1.
Proof. apply rfind_scan_absent. Qed.

Lemma longest_run_lower (s : str) (cur best : Z) :
  cur <= longest_run s cur best /\ best <= longest_run s cur best.
Proof.
  revert cur best. induction s as [|c s IH]; intros cur best; simpl; [lia|].
  destruct (c =? space)%N.
  - destruct (IH 0 (Z.max cur best)). lia.
  - destruct (IH (cur + 1) best). lia.
Qed.

Lemma longest_run_covers (w post : str) (cur best : Z) :
  Forall (fun c => c <> space) w ->
  cur + len w <= longest_run (w ++ post) cur best.
Proof.
  intros Hw. revert cur. induction Hw as [|c w Hc Hw IH]; intros cur.
  - destruct (longest_run_lower post cur best). simpl. unfold len. simpl. lia.
  - simpl. destruct (N.eqb_spec c space) as [|_]; [done|].
    specialize (IH (cur + 1)). unfold len in *. simpl length. lia.
Qed.

Lemma longest_run_infix (pre w post : str) (cur best : Z) :
  0 <= cur ->
  Forall (fun c => c <> space) w ->
  len w <= longest_run (pre ++ w ++ post) cur best.
Proof.
  intros H0 Hw. revert cur best H0.
  induction pre as [|c pre IH]; intros cur best H0; simpl.
  - pose proof (longest_run_covers w post cur best Hw). lia.
  - destruct (c =? space)%N; apply IH; lia.
Qed.

(** Any [longest_word s + 1] consecutive positions of [s] hold a
    space. *)
Lemma space_within (s : str) (i : nat) :
  Z.of_nat i + longest_word s < len s ->
  exists j : nat,
    (i <= j)%nat /\ Z.of_nat j <= Z.of_nat i + longest_word s
    /\ s !! j = Some space.
Proof.
  intros Hi.
  assert (0 <= longest_word s) as HL by apply longest_run_lower.
  set (n := S (Z.to_nat (longest_word s))).
  set (w := take n (drop i s)).
  destruct (decide (Forall (fun c => c <> space) w)) as [Hall|Hex].
  - exfalso.
    pose proof (longest_run_infix (take i s) w (drop n (drop i s)) 0 0
                  (Z.le_refl 0) Hall) as Hle.
    unfold w in Hle at 2. rewrite take_drop, take_drop in Hle.
    fold (longest_word s) in Hle.
    assert (len w = Z.of_nat n) as Hw.
    { unfold len, w. rewrite length_take, length_drop.
      unfold len in Hi. lia. }
    lia.
  - apply not_Forall_Exists in Hex; [|apply _].
    apply Exists_exists in Hex as (c & Hin & Hc).
    apply dec_stable in Hc. subst c.
    apply list_elem_of_lookup in Hin as [k Hk].
    unfold w in Hk. apply lookup_take_Some in Hk as [Hk Hlt].
    rewrite lookup_drop in Hk.
    exists (i + k)%nat. split; [lia|]. split; [lia|done].
Qed.

(** [rfind] answers its accumulator or a later index, and never misses
    the character at an index in range. *)
Lemma rfind_scan_later (c : char) (s : str) (i lo hi acc : Z) :
  rfind_scan c s i lo hi acc = acc \/ i <= rfind_scan c s i lo hi acc.
Proof.
  revert i acc. induction s as [|x s IH]; intros i acc; simpl; [by left|].
  destruct ((lo <=? i) && (i <? hi) && (x =? c)%N).
  - destruct (IH (i + 1) i) as [->|]; right; lia.
  - destruct (IH (i + 1) acc) as [->|]; [by left|right; lia].
Qed.

Lemma rfind_scan_finds (c : char) (s : str) (k : nat) (i lo hi acc : Z) :
  s !! k = Some c ->
  lo <= i + Z.of_nat k < hi ->
  i + Z.of_nat k <= rfind_scan c s i lo hi acc.
Proof.
  revert k i acc. induction s as [|x s IH]; intros k i acc Hk Hr; [done|].
  simpl. destruct k as [|k].
  - injection Hk as ->. rewrite N.eqb_refl, andb_true_r.
    replace ((lo <=? i) && (i <? hi)) with true
      by (symmetry; apply andb_true_iff; lia).
    destruct (rfind_scan_later c s (i + 1) lo hi i) as [->|]; lia.
  - simpl in Hk. etransitivity; [|apply (IH k (i + 1)); [done|lia]]. lia.
Qed.

Lemma rfind_finds (c : char) (s : str) (a b : Z) (j : nat) :
  s !! j = Some c ->
  adjust (len s) a <= Z.of_nat j < adjust (len s) b ->
  Z.of_nat j <= rfind c s a b.
Proof.
  intros Hj Hr. unfold rfind.
  apply (rfind_scan_finds c s j 0 _ _ (-1) Hj). lia.
Qed.

Module ChunkerMore.
Import Chunker ChunkerFacts.

(** The end of the window that starts at [start]. *)
Definition window_end (text : str) (chunk_size start : Z) : Z :=
  let end_ := start + chunk_size in
  if end_ <? len text then
    let last_space := rfind space text start end_ in
    if last_space >? start then last_space else end_
  else end_.

Lemma step_fst text size overlap start chunks :
  (step text size overlap start chunks).1
  = let e := window_end text size start in
    if e - overlap <=? 0 then e else e - overlap.
Proof. reflexivity. Qed.

Lemma step_snd text size overlap start chunks :
  (step text size overlap start chunks).2
  = let c := strip (slice text start (window_end text size start)) in
    if truthy c then chunks ++ [c] else chunks.
Proof. reflexivity. Qed.

(** A window that starts at a non-negative index ends after it, and at
    most [chunk_size] further. *)
Lemma window_end_range text size start :
  0 < size -> 0 <= start ->
  start < window_end text size start <= start + size.
Proof.
  intros Hs H0. unfold window_end. cbn zeta.
  destruct (Z.ltb_spec (start + size) (len text)) as [Hlt|]; [|lia].
  destruct (Z.gtb_spec (rfind space text start (start + size)) start)
    as [Hgt|]; [|lia].
  split; [lia|].
  destruct (rfind_range space text start (start + size)) as [E|[_ H]]; [lia|].
  unfold adjust in H.
  destruct (Z.ltb_spec (start + size) 0); lia.
Qed.

Lemma window_end_zero_size text start :
  0 <= start -> start <= window_end text 0 start <= start.
Proof.
  intros H0. unfold window_end. cbn zeta. rewrite Z.add_0_r.
  destruct (start <? len text); [|lia].
  destruct (Z.gtb_spec (rfind space text start start) start) as [Hgt|]; [|lia].
  destruct (rfind_range space text start start) as [E|[_ H]]; [lia|].
  unfold adjust in H. destruct (Z.ltb_spec start 0); lia.
Qed.

Lemma step_start_nonneg text size overlap start chunks :
  0 <= size -> 0 <= start ->
  0 <= (step text size overlap start chunks).1.
Proof.
  intros Hs H0. rewrite step_fst. cbn zeta.
  assert (start <= window_end text size start) as He.
  { destruct (Z.eq_dec size 0) as [->|].
    - apply window_end_zero_size; lia.
    - pose proof (window_end_range text size start). lia. }
  destruct (Z.leb_spec (window_end text size start - overlap) 0); lia.
Qed.

(** An invariant of the loop variables, kept by every pass, holds when
    the loop ends. *)
Lemma loop_invariant (P : Z -> list str -> Prop) text size overlap :
  (forall start chunks,
      P start chunks -> start < len text ->
      P (step text size overlap start chunks).1
        (step text size overlap start chunks).2) ->
  forall fuel start chunks out,
    P start chunks ->
    loop fuel text size overlap start chunks = Some out ->
    exists start', P start' out.
Proof.
  intros Hstep. induction fuel as [|fuel IH]; intros start chunks out HP.
  - rewrite loop_O. destruct (start <? len text); [done|].
    intros [= <-]. eauto.
  - rewrite loop_S. destruct (Z.ltb_spec start (len text)) as [Hlt|].
    + apply IH. by apply Hstep.
    + intros [= <-]. eauto.
Qed.

(** The docstring's "maximum characters per chunk": with a chunk size
    that is not negative, no chunk is longer than [chunk_size]. *)
Theorem chunk_text_bounded fuel text chunk_size chunk_overlap out :
  0 <= chunk_size ->
  chunk_text fuel text chunk_size chunk_overlap = Some out ->
  Forall (fun c => len c <= chunk_size) out.
Proof.
  intros Hs. unfold chunk_text.
  destruct (Z.leb_spec (len text) chunk_size) as [Hle|Hgt].
  - intros [= <-]. by constructor.
  - intros Hrun.
    eapply (loop_invariant
              (fun start chunks =>
                 0 <= start /\ Forall (fun c => len c <= chunk_size) chunks))
      in Hrun as (start' & _ & H); [done| |done].
    intros start chunks [H0 Hall] _. split.
    + by apply step_start_nonneg.
    + rewrite step_snd. cbn zeta.
      destruct (truthy _); [|done].
      apply Forall_app. split; [done|]. constructor; [|done].
      etransitivity; [apply len_strip_le|].
      assert (start <= window_end text chunk_size start <= start + chunk_size).
      { destruct (Z.eq_dec chunk_size 0) as [->|].
        - rewrite Z.add_0_r. by apply window_end_zero_size.
        - pose proof (window_end_range text chunk_size start). lia. }
      etransitivity; [apply len_slice_le|]; lia.
Qed.

Lemma chunk_text_bounded_witness :
  Forall (fun c => len c <= 12)
    [str_of "hello world"; str_of "rld and"; str_of "and more";
     str_of "ore things"; str_of "ngs to say"; str_of "y"].
Proof.
  apply (chunk_text_bounded 6
           (str_of "hello world and more things to say") 12 3).
  - lia.
  - vm_compute. reflexivity.
Defined.

(** Every chunk is a contiguous piece of the text. *)
Theorem chunk_text_pieces fuel text chunk_size chunk_overlap out :
  chunk_text fuel text chunk_size chunk_overlap = Some out ->
  Forall (fun c => exists pre post, text = pre ++ c ++ post) out.
Proof.
  unfold chunk_text. destruct (len text <=? chunk_size).
  - intros [= <-]. constructor; [|done].
    exists [], []. by rewrite app_nil_r.
  - intros Hrun.
    eapply (loop_invariant
              (fun _ chunks =>
                 Forall (fun c => exists pre post, text = pre ++ c ++ post)
                   chunks))
      in Hrun as (_ & H); [done| |done].
    intros start chunks Hall _. rewrite step_snd. cbn zeta.
    destruct (truthy _); [|done].
    apply Forall_app. split; [done|]. constructor; [|done].
    set (e := window_end text chunk_size start).
    destruct (slice_infix text start e) as (p1 & q1 & H1).
    destruct (strip_infix (slice text start e)) as (p2 & q2 & H2).
    exists (p1 ++ p2), (q2 ++ q1).
    rewrite H1 at 1. rewrite H2 at 1. by rewrite <- !app_assoc.
Qed.

Lemma chunk_text_pieces_witness :
  Forall (fun c => exists pre post,
              str_of "hello world and more things to say" = pre ++ c ++ post)
    [str_of "hello world"; str_of "rld and"; str_of "and more";
     str_of "ore things"; str_of "ngs to say"; str_of "y"].
Proof.
  apply (chunk_text_pieces 6
           (str_of "hello world and more things to say") 12 3).
  vm_compute. reflexivity.
Defined.

(** The chunks of a text longer than [chunk_size] carry no whitespace
    at either end (a shorter text is returned untrimmed). *)
Theorem chunk_text_trimmed fuel text chunk_size chunk_overlap out :
  chunk_size < len text ->
  chunk_text fuel text chunk_size chunk_overlap = Some out ->
  Forall (fun c => strip c = c) out.
Proof.
  intros Hgt. unfold chunk_text.
  destruct (Z.leb_spec (len text) chunk_size); [lia|].
  intros Hrun.
  eapply (loop_invariant
            (fun _ chunks => Forall (fun c => strip c = c) chunks))
    in Hrun as (_ & H'); [done| |done].
  intros start chunks Hall _. rewrite step_snd. cbn zeta.
  destruct (truthy _); [|done].
  apply Forall_app. split; [done|]. constructor; [|done].
  apply strip_idem.
Qed.

Lemma chunk_text_trimmed_witness :
  Forall (fun c => strip c = c)
    [str_of "hello world"; str_of "rld and"; str_of "and more";
     str_of "ore things"; str_of "ngs to say"; str_of "y"].
Proof.
  apply (chunk_text_trimmed 6
           (str_of "hello world and more things to say") 12 3).
  - vm_compute. reflexivity.
  - vm_compute. reflexivity.
Defined.

(** More fuel does not change a result. *)
Lemma loop_more_fuel text size overlap fuel :
  forall start chunks out (extra : nat),
    loop fuel text size overlap start chunks = Some out ->
    loop (fuel + extra) text size overlap start chunks = Some out.
Proof.
  induction fuel as [|fuel IH]; intros start chunks out extra.
  - rewrite loop_O. destruct (start <? len text) eqn:E; [done|].
    intros [= <-]. destruct extra; simpl; by rewrite E.
  - rewrite loop_S. change (S fuel + extra)%nat with (S (fuel + extra)).
    rewrite loop_S. destruct (start <? len text); [|done]. apply IH.
Qed.

(** When every pass moves [start] forward, the loop ends within
    [len text - start] passes. *)
Lemma loop_finishes text size overlap :
  (forall start chunks,
      0 <= start < len text ->
      start < (step text size overlap start chunks).1) ->
  forall fuel start chunks,
    0 <= start -> len text - start <= Z.of_nat fuel ->
    exists out, loop fuel text size overlap start chunks = Some out.
Proof.
  intros Hmove. induction fuel as [|fuel IH]; intros start chunks H0 Hfuel.
  - rewrite loop_O. destruct (Z.ltb_spec start (len text)); [lia|]. eauto.
  - rewrite loop_S. destruct (Z.ltb_spec start (len text)); [|eauto].
    pose proof (Hmove start chunks). apply IH; lia.
Qed.

Lemma chunk_text_finishes text size overlap :
  (forall start chunks,
      0 <= start < len text ->
      start < (step text size overlap start chunks).1) ->
  exists out,
    forall fuel, (Z.to_nat (len text) <= fuel)%nat ->
      chunk_text fuel text size overlap = Some out.
Proof.
  intros Hmove. unfold chunk_text.
  destruct (len text <=? size); [eauto|].
  destruct (loop_finishes text size overlap Hmove
              (Z.to_nat (len text)) 0 []) as [out Hout]; [lia|lia|].
  exists out. intros fuel Hfuel.
  replace fuel with (Z.to_nat (len text) + (fuel - Z.to_nat (len text)))%nat
    by lia.
  by apply loop_more_fuel.
Qed.

(** Termination without overlap: with a positive chunk size and an
    overlap of zero (or less), [chunk_text] returns on every text, after
    at most [len text] passes of its loop. *)
Theorem chunk_text_ends_without_overlap text chunk_size chunk_overlap :
  0 < chunk_size -> chunk_overlap <= 0 ->
  exists out,
    forall fuel, (Z.to_nat (len text) <= fuel)%nat ->
      chunk_text fuel text chunk_size chunk_overlap = Some out.
Proof.
  intros Hs Ho. apply chunk_text_finishes.
  intros start chunks [H0 _]. rewrite step_fst. cbn zeta.
  pose proof (window_end_range text chunk_size start Hs H0).
  destruct (Z.leb_spec (window_end text chunk_size start - chunk_overlap) 0);
    lia.
Qed.

Lemma chunk_text_ends_without_overlap_witness :
  exists out,
    forall fuel,
      (Z.to_nat (len (str_of "hello world and more things to say")) <= fuel)%nat ->
      chunk_text fuel (str_of "hello world and more things to say") 12 0
      = Some out.
Proof.
  apply (chunk_text_ends_without_overlap
           (str_of "hello world and more things to say") 12 0); lia.
Defined.

(** Termination without spaces: on a text that holds no space, with a
    positive chunk size and a smaller overlap, [chunk_text] returns,
    after at most [len text] passes of its loop. *)
Theorem chunk_text_ends_without_spaces text chunk_size chunk_overlap :
  space ∉ text ->
  0 < chunk_size -> chunk_overlap < chunk_size ->
  exists out,
    forall fuel, (Z.to_nat (len text) <= fuel)%nat ->
      chunk_text fuel text chunk_size chunk_overlap = Some out.
Proof.
  intros Hno Hs Ho. apply chunk_text_finishes.
  intros start chunks [H0 _]. rewrite step_fst. cbn zeta.
  assert (window_end text chunk_size start = start + chunk_size) as ->.
  { unfold window_end. cbn zeta. rewrite rfind_absent by done.
    destruct (_ <? _); [|done].
    by destruct (Z.gtb_spec (-1) start); [lia|]. }
  destruct (Z.leb_spec (start + chunk_size - chunk_overlap) 0); lia.
Qed.

Lemma chunk_text_ends_without_spaces_witness :
  exists out,
    forall fuel,
      (Z.to_nat (len (str_of "abcdefghijklmnopqrstuvwxyz0123")) <= fuel)%nat ->
      chunk_text fuel (str_of "abcdefghijklmnopqrstuvwxyz0123") 12 3
      = Some out.
Proof.
  apply (chunk_text_ends_without_spaces
           (str_of "abcdefghijklmnopqrstuvwxyz0123") 12 3); [|lia|lia].
  apply (bool_decide_unpack _). vm_compute. exact I.
Defined.

(** With short words every pass moves [start] forward: the window ends
    at a space more than [chunk_overlap] after its start. *)
Lemma short_words_move text chunk_size chunk_overlap :
  0 <= chunk_overlap ->
  longest_word text + chunk_overlap + 1 < chunk_size ->
  forall start chunks,
    0 <= start < len text ->
    start < (step text chunk_size chunk_overlap start chunks).1.
Proof.
  intros Ho HL.
  assert (0 <= longest_word text) as HL0 by apply longest_run_lower.
  intros start chunks [H0 Hlt]. rewrite step_fst. cbn zeta.
  assert (start + chunk_overlap < window_end text chunk_size start) as He.
  { unfold window_end. cbn zeta.
    destruct (Z.ltb_spec (start + chunk_size) (len text)) as [Hin|]; [|lia].
    destruct (space_within text
                (Z.to_nat (start + chunk_size - 1 - longest_word text)))
      as (j & Hj1 & Hj2 & Hj); [lia|].
    pose proof (rfind_finds space text start (start + chunk_size) j Hj) as Hf.
    unfold adjust in Hf.
    destruct (Z.ltb_spec start 0); [lia|].
    destruct (Z.ltb_spec (start + chunk_size) 0); [lia|].
    destruct (Z.gtb_spec (rfind space text start (start + chunk_size)) start);
      lia. }
  destruct (Z.leb_spec (window_end text chunk_size start - chunk_overlap) 0);
    lia.
Qed.

(** Termination on ordinary text: when the overlap is not negative and
    the longest run of characters without a space is shorter than
    [chunk_size - chunk_overlap - 1] (449 characters, with the
    defaults), every window ends at a space far enough from its start,
    and [chunk_text] returns, after at most [len text] passes. *)
Theorem chunk_text_ends_with_short_words text chunk_size chunk_overlap :
  0 <= chunk_overlap ->
  longest_word text + chunk_overlap + 1 < chunk_size ->
  exists out,
    forall fuel, (Z.to_nat (len text) <= fuel)%nat ->
      chunk_text fuel text chunk_size chunk_overlap = Some out.
Proof.
  intros Ho HL. apply chunk_text_finishes. by apply short_words_move.
Qed.

(** The same with the default parameters, as [add_transcript] calls the
    chunker. *)
Lemma chunk_text_default_finishes text (fuel : nat) :
  longest_word text + default_chunk_overlap + 1 < default_chunk_size ->
  (Z.to_nat (len text) <= fuel)%nat ->
  exists chunks,
    chunk_text fuel text default_chunk_size default_chunk_overlap
    = Some chunks.
Proof.
  intros HL Hfuel.
  destruct (chunk_text_finishes text default_chunk_size default_chunk_overlap)
    as [out Hout]; [by apply short_words_move|].
  exists out. by apply Hout.
Qed.

Lemma chunk_text_ends_with_short_words_witness :
  exists out,
    forall fuel,
      (Z.to_nat (len (str_of "hello world and more things to say")) <= fuel)%nat ->
      chunk_text fuel (str_of "hello world and more things to say") 12 3
      = Some out.
Proof.
  apply (chunk_text_ends_with_short_words
           (str_of "hello world and more things to say") 12 3).
  - lia.
  - vm_compute. reflexivity.
Defined.

(** The loop only appends to [chunks]. *)
Lemma loop_extends text size overlap fuel :
  forall start chunks out,
    loop fuel text size overlap start chunks = Some out ->
    exists more, out = chunks ++ more.
Proof.
  induction fuel as [|fuel IH]; intros start chunks out.
  - rewrite loop_O. destruct (start <? len text); [done|].
    intros [= <-]. exists []. by rewrite app_nil_r.
  - rewrite loop_S. destruct (start <? len text).
    + intros (more & ->)%IH. rewrite step_snd. cbn zeta.
      destruct (truthy _); [|eauto].
      rewrite <- app_assoc. eauto.
    + intros [= <-]. exists []. by rewrite app_nil_r.
Qed.

(** On a text that starts with a character other than whitespace, the
    first pass of the loop keeps its chunk. *)
Lemma loop_some_chunk fuel (c : char) (rest : str) size overlap out :
  0 < size -> isspace c = false ->
  loop fuel (c :: rest) size overlap 0 [] = Some out ->
  out <> [].
Proof.
  intros Hs Hc. destruct fuel as [|fuel].
  - rewrite loop_O. change (0 <? len (c :: rest)) with true. done.
  - rewrite loop_S. change (0 <? len (c :: rest)) with true. cbn iota.
    intros (more & ->)%loop_extends. rewrite step_snd. cbn zeta.
    pose proof (window_end_range (c :: rest) size 0 Hs) as He.
    set (e := window_end (c :: rest) size 0) in *.
    assert (exists t, slice (c :: rest) 0 e = c :: t) as [t ->].
    { assert (0 < len (c :: rest)) as Hn by (unfold len; simpl length; lia).
      assert (adjust (len (c :: rest)) 0 = 0) as Ha.
      { unfold adjust. change (0 <? 0) with false. cbn iota. lia. }
      assert (0 < adjust (len (c :: rest)) e) as Hb.
      { unfold adjust. destruct (Z.ltb_spec e 0); lia. }
      unfold slice. cbn zeta. rewrite Ha. simpl drop.
      destruct (Z.to_nat (adjust (len (c :: rest)) e - 0)) as [|n] eqn:En;
        [lia|].
      simpl. eauto. }
    unfold strip. rewrite (lstrip_fixed c t Hc).
    destruct (rstrip_keeps_head c t Hc) as [u ->]. simpl. done.
Qed.

(** [chunk_text] never returns the empty list for a text that starts
    with a character other than whitespace: whatever it returns holds at
    least one chunk. *)
Theorem chunk_text_some_chunk fuel text chunk_size chunk_overlap out :
  0 < chunk_size ->
  (exists c rest, text = c :: rest /\ isspace c = false) ->
  chunk_text fuel text chunk_size chunk_overlap = Some out ->
  out <> [].
Proof.
  intros Hs (c & rest & -> & Hc). unfold chunk_text.
  destruct (len (c :: rest) <=? chunk_size).
  - by intros [= <-].
  - by apply loop_some_chunk.
Qed.

Lemma chunk_text_some_chunk_witness :
  [str_of "hello world"; str_of "rld and"; str_of "and more";
   str_of "ore things"; str_of "ngs to say"; str_of "y"] <> [].
Proof.
  apply (chunk_text_some_chunk 6
           (str_of "hello world and more things to say") 12 3).
  - lia.
  - eexists _, _. split; [reflexivity|]. reflexivity.
  - vm_compute. reflexivity.
Defined.

End ChunkerMore.

(** ** The reference world: adding and removing *)

Module ReferenceMore.
Import VectorStoreManager Reference ReferenceDefs ReferenceFacts.

Lemma for_each_chunk_metadata digest p h total chunks :
  forall (k : nat) (w : world),
    for_each
      (fun ic : nat * str =>
         chunk_metadata (Host0 := host digest) p h total ic.1 ic.2)
      (imap (fun i x => ((k + i)%nat, x)) chunks) w
    = Return
        (imap (fun i c =>
                 chunk_fields p h total (k + i)
                   (str_of (pretty (w_ticks w + i)%nat)) c) chunks)
        (set_ticks (w_ticks w + length chunks) w).
Proof.
  induction chunks as [|c chunks IH]; intros k w.
  - simpl. unfold ret. f_equal. destruct w. unfold set_ticks. simpl.
    by rewrite Nat.add_0_r.
  - rewrite !imap_cons. simpl for_each. unfold bind at 1.
    unfold chunk_metadata at 1. unfold bind at 1. simpl now_isoformat.
    cbv beta. unfold ret at 1. unfold bind at 1.
    rewrite (imap_ext _ (fun i x => ((S k + i)%nat, x))); last first.
    { intros i x _. simpl. f_equal. lia. }
    rewrite IH. unfold ret. simpl. f_equal.
    + f_equal.
      * unfold chunk_fields. by rewrite !Nat.add_0_r.
      * apply imap_ext. intros i x _. simpl.
        replace (k + S i)%nat with (S (k + i)) by lia.
        by replace (w_ticks w + S i)%nat with (S (w_ticks w + i)) by lia.
    + unfold set_ticks. simpl. f_equal. lia.
Qed.

(** An upsert leaves the other ids alone, and stores row [i] under the
    [i]-th id when the ids are distinct. *)
Lemma upsert_rows_outside ids :
  forall documents metadatas embeddings store id,
    id ∉ ids ->
    upsert_rows ids documents metadatas embeddings store !! id = store !! id.
Proof.
  induction ids as [|k ids IH]; intros documents metadatas embeddings store id Hid;
    [done|].
  apply not_elem_of_cons in Hid as [Hk Hid].
  destruct documents as [|d documents], metadatas as [|m metadatas],
    embeddings as [|e embeddings]; try done.
  simpl. rewrite IH by done. by rewrite lookup_insert_ne.
Qed.

Lemma upsert_rows_at ids :
  forall documents metadatas embeddings store (i : nat) id d m e,
    NoDup ids ->
    ids !! i = Some id -> documents !! i = Some d ->
    metadatas !! i = Some m -> embeddings !! i = Some e ->
    upsert_rows ids documents metadatas embeddings store !! id
    = Some {| e_document := d; e_metadata := m; e_embedding := e |}.
Proof.
  induction ids as [|k ids IH];
    intros documents metadatas embeddings store i id d m e Hnd Hid Hd Hm He;
    [done|].
  apply NoDup_cons in Hnd as [Hk Hnd].
  destruct documents as [|d0 documents], metadatas as [|m0 metadatas],
    embeddings as [|e0 embeddings]; try done.
  destruct i as [|i]; simpl in *.
  - injection Hid as ->. injection Hd as ->. injection Hm as ->.
    injection He as ->.
    rewrite upsert_rows_outside by done. by rewrite lookup_insert_eq.
  - by eapply IH.
Qed.

Lemma chunk_ids_NoDup file_id (chunks : list str) :
  NoDup (imap (fun i _ => chunk_id file_id i) chunks).
Proof.
  apply NoDup_alt. intros i j id Hi Hj.
  apply list_lookup_imap_Some in Hi as (x & _ & ->).
  apply list_lookup_imap_Some in Hj as (y & _ & Hj).
  by apply chunk_id_inj in Hj.
Qed.

Lemma elem_of_chunk_ids file_id (chunks : list str) id :
  id ∈ imap (fun i _ => chunk_id file_id i) chunks
  <-> exists i : nat, (i < length chunks)%nat /\ id = chunk_id file_id i.
Proof.
  rewrite list_elem_of_lookup. split.
  - intros [i (x & Hx & ->)%list_lookup_imap_Some].
    exists i. split; [by eapply lookup_lt_Some|done].
  - intros (i & [x Hx]%lookup_lt_is_Some & ->).
    exists i. apply list_lookup_imap_Some. eauto.
Qed.

Lemma well_formed_lengths (ids documents : list str)
    (metadatas : list metadata) embeddings :
  length documents = length ids ->
  length metadatas = length ids ->
  match embeddings with
  | Some es => length es = length ids /\ Forall is_Some es
  | None => True
  end ->
  well_formed ids documents metadatas embeddings = true.
Proof.
  intros Hd Hm He. unfold well_formed.
  rewrite Hd, Hm, !Nat.eqb_refl. simpl.
  destruct embeddings as [es|]; [|done].
  destruct He as [He Hall]. rewrite He, Nat.eqb_refl. simpl.
  apply forallb_forall. intros e Hin%list_elem_of_In.
  rewrite Forall_forall in Hall. apply bool_decide_eq_true_2. by apply Hall.
Qed.

(** The path of [add_transcript] through a full add, for any
    capabilities. *)
Lemma add_transcript_path {W} `{!Host W, !Collection W} fuel (p : path)
    (t : option (transcriber W)) (w w1 w2 w3 w4 w5 w6 w7 w8 : W)
    raw file_id existing chunks embeddings metadatas :
  path_exists p w = Return true w1 ->
  read_text p w1 = Return raw w2 ->
  truthy (strip raw) = true ->
  path_absolute p w2 = Return file_id w3 ->
  collection_get [file_id] w3 = Return existing w4 ->
  (if nonempty (g_ids existing) && nonempty (g_metadatas existing) then
     existing_hash <- first_content_hash (g_metadatas existing) ;;
     ret (bool_decide
            (existing_hash = Some (MStr (md5_hexdigest (strip raw)))))
   else ret false)%py w4 = Return false w5 ->
  Chunker.chunk_text fuel (strip raw)
    Chunker.default_chunk_size Chunker.default_chunk_overlap = Some chunks ->
  embed_chunks t chunks w5 = Return embeddings w6 ->
  for_each
    (fun ic : nat * str =>
       chunk_metadata p (md5_hexdigest (strip raw)) (length chunks) ic.1 ic.2)
    (enumerate chunks) w6 = Return metadatas w7 ->
  collection_upsert (imap (fun i _ => chunk_id file_id i) chunks) chunks
    metadatas
    (match embeddings with Some (_ :: _) => embeddings | _ => None end) w7
  = Return tt w8 ->
  add_transcript fuel p t w = Return true w8.
Proof.
  intros H1 H2 H3 H4 H5 H6 H7 H8 H9 H10.
  unfold add_transcript, try_except.
  unfold bind at 1. rewrite H1. cbv beta iota.
  change (negb true) with false. cbv beta iota.
  unfold bind at 1. rewrite H2. cbv beta iota. rewrite H3.
  change (negb true) with false. cbv beta iota.
  unfold bind at 1. rewrite H4. cbv beta iota.
  unfold bind at 1. rewrite H5. cbv beta iota.
  unfold bind at 1. rewrite H6. cbv beta iota.
  unfold bind at 1. unfold call_chunk_text. rewrite H7. unfold ret at 1.
  cbv beta iota.
  unfold bind at 1. rewrite H8. cbv beta iota.
  unfold bind at 1. rewrite H9. cbv beta iota.
  unfold bind at 1.
  destruct embeddings as [[|e es]|]; rewrite H10; reflexivity.
Qed.

(** The same path, with an upsert that raises. *)
Lemma add_transcript_path_rejected {W} `{!Host W, !Collection W} fuel
    (p : path) (t : option (transcriber W)) (w w1 w2 w3 w4 w5 w6 w7 w8 : W)
    raw file_id existing chunks embeddings metadatas e :
  path_exists p w = Return true w1 ->
  read_text p w1 = Return raw w2 ->
  truthy (strip raw) = true ->
  path_absolute p w2 = Return file_id w3 ->
  collection_get [file_id] w3 = Return existing w4 ->
  (if nonempty (g_ids existing) && nonempty (g_metadatas existing) then
     existing_hash <- first_content_hash (g_metadatas existing) ;;
     ret (bool_decide
            (existing_hash = Some (MStr (md5_hexdigest (strip raw)))))
   else ret false)%py w4 = Return false w5 ->
  Chunker.chunk_text fuel (strip raw)
    Chunker.default_chunk_size Chunker.default_chunk_overlap = Some chunks ->
  embed_chunks t chunks w5 = Return embeddings w6 ->
  for_each
    (fun ic : nat * str =>
       chunk_metadata p (md5_hexdigest (strip raw)) (length chunks) ic.1 ic.2)
    (enumerate chunks) w6 = Return metadatas w7 ->
  collection_upsert (imap (fun i _ => chunk_id file_id i) chunks) chunks
    metadatas
    (match embeddings with Some (_ :: _) => embeddings | _ => None end) w7
  = Raise e w8 ->
  add_transcript fuel p t w = Return false w8.
Proof.
  intros H1 H2 H3 H4 H5 H6 H7 H8 H9 H10.
  unfold add_transcript, try_except.
  unfold bind at 1. rewrite H1. cbv beta iota.
  change (negb true) with false. cbv beta iota.
  unfold bind at 1. rewrite H2. cbv beta iota. rewrite H3.
  change (negb true) with false. cbv beta iota.
  unfold bind at 1. rewrite H4. cbv beta iota.
  unfold bind at 1. rewrite H5. cbv beta iota.
  unfold bind at 1. rewrite H6. cbv beta iota.
  unfold bind at 1. unfold call_chunk_text. rewrite H7. unfold ret at 1.
  cbv beta iota.
  unfold bind at 1. rewrite H8. cbv beta iota.
  unfold bind at 1. rewrite H9. cbv beta iota.
  unfold bind at 1.
  destruct embeddings as [[|v vs]|]; rewrite H10; reflexivity.
Qed.

(** The lookup under the bare file id, when it finds no entry with the
    hash of the text. *)
Lemma lookup_not_up_to_date (w : world) file_id h :
  field (w_store w) file_id "content_hash" <> Some (MStr h) ->
  (if nonempty (g_ids (as_get_result (rows_of (w_store w) [file_id])))
      && nonempty (g_metadatas (as_get_result (rows_of (w_store w) [file_id])))
   then
     existing_hash <-
       first_content_hash
         (g_metadatas (as_get_result (rows_of (w_store w) [file_id]))) ;;
     ret (bool_decide (existing_hash = Some (MStr h)))
   else ret false)%py w = Return false w.
Proof.
  intros Hold. unfold field in Hold.
  replace (rows_of (w_store w) [file_id])
    with (match w_store w !! file_id with
          | Some e => [(file_id, e)]
          | None => []
          end)
    by (unfold rows_of; simpl; by destruct (w_store w !! file_id)).
  destruct (w_store w !! file_id) as [e|]; simpl.
  - unfold bind, first_content_hash, bind, item. simpl. unfold ret.
    by rewrite bool_decide_eq_false_2 by (simpl in Hold; done).
  - reflexivity.
Qed.

Lemma lookup_up_to_date (w : world) file_id h :
  field (w_store w) file_id "content_hash" = Some (MStr h) ->
  (if nonempty (g_ids (as_get_result (rows_of (w_store w) [file_id])))
      && nonempty (g_metadatas (as_get_result (rows_of (w_store w) [file_id])))
   then
     existing_hash <-
       first_content_hash
         (g_metadatas (as_get_result (rows_of (w_store w) [file_id]))) ;;
     ret (bool_decide (existing_hash = Some (MStr h)))
   else ret false)%py w = Return true w.
Proof.
  intros Hold. unfold field in Hold.
  replace (rows_of (w_store w) [file_id])
    with (match w_store w !! file_id with
          | Some e => [(file_id, e)]
          | None => []
          end)
    by (unfold rows_of; simpl; by destruct (w_store w !! file_id)).
  destruct (w_store w !! file_id) as [e|]; simpl; [|done].
  unfold bind, first_content_hash, bind, item. simpl. unfold ret.
  by rewrite bool_decide_eq_true_2.
Qed.

(** The path of [add_transcript] through the short-circuit, for any
    capabilities. *)
Lemma add_transcript_path_unchanged {W} `{!Host W, !Collection W} fuel
    (p : path) (t : option (transcriber W)) (w w1 w2 w3 w4 w5 : W)
    raw file_id existing :
  path_exists p w = Return true w1 ->
  read_text p w1 = Return raw w2 ->
  truthy (strip raw) = true ->
  path_absolute p w2 = Return file_id w3 ->
  collection_get [file_id] w3 = Return existing w4 ->
  (if nonempty (g_ids existing) && nonempty (g_metadatas existing) then
     existing_hash <- first_content_hash (g_metadatas existing) ;;
     ret (bool_decide
            (existing_hash = Some (MStr (md5_hexdigest (strip raw)))))
   else ret false)%py w4 = Return true w5 ->
  add_transcript fuel p t w = Return true w5.
Proof.
  intros H1 H2 H3 H4 H5 H6.
  unfold add_transcript, try_except.
  unfold bind at 1. rewrite H1. cbv beta iota.
  change (negb true) with false. cbv beta iota.
  unfold bind at 1. rewrite H2. cbv beta iota. rewrite H3.
  change (negb true) with false. cbv beta iota.
  unfold bind at 1. rewrite H4. cbv beta iota.
  unfold bind at 1. rewrite H5. cbv beta iota.
  unfold bind at 1. rewrite H6. reflexivity.
Qed.

(** The recording provider is called once per chunk, in order. *)
Lemma for_each_recording (answer : str -> option embedding)
    (chunks : list str) :
  forall w : world,
    for_each
      (fun text (w : world) =>
         Return (answer text) (set_embedded (w_embedded w ++ [text]) w))
      chunks w
    = Return (map answer chunks) (set_embedded (w_embedded w ++ chunks) w).
Proof.
  induction chunks as [|c chunks IH]; intros w.
  - simpl. unfold ret. f_equal. destruct w. unfold set_embedded. simpl.
    by rewrite app_nil_r.
  - simpl. unfold bind. rewrite IH. unfold ret. f_equal.
    unfold set_embedded. simpl. by rewrite <- app_assoc.
Qed.

Lemma embed_chunks_recording (answer : str -> option embedding)
    (chunks : list str) (w : world) :
  embed_chunks (Some (recording answer)) chunks w
  = Return (Some (map answer chunks))
      (set_embedded (w_embedded w ++ chunks) w).
Proof.
  unfold embed_chunks, recording, try_except, bind. simpl.
  by rewrite for_each_recording.
Qed.

(** The world an add without embedding provider leaves. *)
Lemma add_transcript_run digest fuel (p : path) (w : world) raw chunks :
  w_files w !! absolute (w_cwd w) p = Some raw ->
  truthy (strip raw) = true ->
  field (w_store w) (absolute (w_cwd w) p) "content_hash"
  <> Some (MStr (digest (strip raw))) ->
  Chunker.chunk_text fuel (strip raw)
    Chunker.default_chunk_size Chunker.default_chunk_overlap = Some chunks ->
  add digest fuel p None w
  = Return true
      (set_store
         (upsert_rows
            (imap (fun i _ => chunk_id (absolute (w_cwd w) p) i) chunks)
            chunks
            (imap (fun i c =>
                     chunk_fields p (digest (strip raw)) (length chunks) i
                       (str_of (pretty (w_ticks w + i)%nat)) c) chunks)
            (replicate (length chunks) None)
            (w_store w))
         (set_ticks (w_ticks w + length chunks) w)).
Proof.
  intros Hfile Hne Hold Hchunks. unfold add.
  eapply (add_transcript_path (Host0 := host digest)
            (Collection0 := collection) fuel p None w w w w w w w).
  - simpl. rewrite Hfile. by rewrite bool_decide_eq_true_2 by eauto.
  - simpl. by rewrite Hfile.
  - done.
  - reflexivity.
  - reflexivity.
  - unfold field in Hold. simpl. unfold rows_of. simpl omap.
    destruct (w_store w !! absolute (w_cwd w) p) as [e|] eqn:E; simpl.
    + unfold bind, first_content_hash, bind, item. simpl. unfold ret.
      by rewrite bool_decide_eq_false_2 by (simpl in Hold; done).
    + reflexivity.
  - done.
  - reflexivity.
  - unfold enumerate.
    rewrite (imap_ext _ (fun i x => ((0 + i)%nat, x))) by done.
    apply for_each_chunk_metadata.
  - simpl.
    rewrite well_formed_lengths; rewrite ?length_imap; done.
Qed.

Lemma chunk_fields_source p h total i date chunk :
  chunk_fields p h total i date chunk !! "source_file"
  = Some (MStr (path_str p)).
Proof. unfold chunk_fields. simpl. by rewrite lookup_insert_eq. Qed.

(** What a trimmed, non-empty text starts with. *)
Lemma strip_head (s : str) :
  truthy (strip s) = true ->
  exists c t, strip s = c :: t /\ isspace c = false.
Proof.
  unfold strip. destruct (lstrip_head s) as [->|(c & t & -> & Hc)]; [done|].
  intros _. destruct (rstrip_keeps_head c t Hc) as [u ->]. eauto.
Qed.

(** Adding stores the chunks: on the reference world, when the file
    holds text whose words are shorter than 449 characters and no entry
    under the bare file id carries its hash, [add_transcript] (without
    embedding provider, with fuel for [len] passes of the chunker)
    answers [true], stores chunk [i] of the trimmed text under the id
    [file_id_i] with the metadata of that chunk and no vector, and
    changes no other id, no file and no embedding log. *)
Theorem add_transcript_stores digest fuel (p : path) (w : world) raw :
  w_files w !! absolute (w_cwd w) p = Some raw ->
  truthy (strip raw) = true ->
  field (w_store w) (absolute (w_cwd w) p) "content_hash"
  <> Some (MStr (digest (strip raw))) ->
  longest_word (strip raw) + Chunker.default_chunk_overlap + 1
  < Chunker.default_chunk_size ->
  (Z.to_nat (len (strip raw)) <= fuel)%nat ->
  exists chunks w',
    Chunker.chunk_text fuel (strip raw)
      Chunker.default_chunk_size Chunker.default_chunk_overlap = Some chunks
    /\ add digest fuel p None w = Return true w'
    /\ (forall (i : nat) chunk,
          chunks !! i = Some chunk ->
          w_store w' !! chunk_id (absolute (w_cwd w) p) i
          = Some (chunk_entry p (digest (strip raw)) chunks (w_ticks w) i
                    chunk None))
    /\ (forall id,
          (forall i : nat,
              (i < length chunks)%nat ->
              id <> chunk_id (absolute (w_cwd w) p) i) ->
          w_store w' !! id = w_store w !! id)
    /\ w_files w' = w_files w
    /\ w_embedded w' = w_embedded w.
Proof.
  intros Hfile Hne Hold Hwords Hfuel.
  destruct (ChunkerMore.chunk_text_default_finishes (strip raw) fuel
              Hwords Hfuel) as [chunks Hchunks].
  exists chunks. eexists. split; [done|]. split.
  { by apply add_transcript_run. }
  simpl. split; [|split; [|done]].
  - intros i chunk Hi.
    apply (upsert_rows_at _ _ _ _ _ i).
    + apply chunk_ids_NoDup.
    + apply list_lookup_imap_Some. eauto.
    + done.
    + apply list_lookup_imap_Some. eauto.
    + apply lookup_replicate. split; [done|]. by eapply lookup_lt_Some.
  - intros id Hid. apply upsert_rows_outside.
    intros [i Hi]%list_elem_of_lookup.
    apply list_lookup_imap_Some in Hi as (x & Hx & ->).
    eapply Hid; [|done]. by eapply lookup_lt_Some.
Qed.

Lemma add_transcript_stores_witness :
  exists chunks w',
    Chunker.chunk_text 42 (strip memo_text)
      Chunker.default_chunk_size Chunker.default_chunk_overlap = Some chunks
    /\ add (fun s => s) 42 memo None (world_with memo_text) = Return true w'
    /\ (forall (i : nat) chunk,
          chunks !! i = Some chunk ->
          w_store w' !! chunk_id (absolute (w_cwd (world_with memo_text)) memo) i
          = Some (chunk_entry memo (strip memo_text) chunks
                    (w_ticks (world_with memo_text)) i chunk None))
    /\ (forall id,
          (forall i : nat,
              (i < length chunks)%nat ->
              id <> chunk_id (absolute (w_cwd (world_with memo_text)) memo) i) ->
          w_store w' !! id = w_store (world_with memo_text) !! id)
    /\ w_files w' = w_files (world_with memo_text)
    /\ w_embedded w' = w_embedded (world_with memo_text).
Proof.
  apply (add_transcript_stores (fun s => s) 42 memo (world_with memo_text)
           memo_text).
  - vm_compute; reflexivity.
  - vm_compute; reflexivity.
  - vm_compute; discriminate.
  - vm_compute; reflexivity.
  - vm_compute; lia.
Defined.

(** The short-circuit, as the code has it: when an entry stored under
    the bare file id carries the content hash of the file's trimmed
    text, [add_transcript] answers [true] and touches nothing (no
    embedding call, no upsert, no clock reading), whatever the embedding
    provider and the fuel. *)
Theorem add_transcript_up_to_date digest fuel (p : path)
    (t : option (transcriber world)) (w : world) raw :
  w_files w !! absolute (w_cwd w) p = Some raw ->
  truthy (strip raw) = true ->
  field (w_store w) (absolute (w_cwd w) p) "content_hash"
  = Some (MStr (digest (strip raw))) ->
  add digest fuel p t w = Return true w.
Proof.
  intros Hfile Hne Hold. unfold add.
  eapply (add_transcript_path_unchanged (Host0 := host digest)
            (Collection0 := collection) fuel p t w w w w w w).
  - simpl. rewrite Hfile. by rewrite bool_decide_eq_true_2 by eauto.
  - simpl. by rewrite Hfile.
  - done.
  - reflexivity.
  - reflexivity.
  - by apply lookup_up_to_date.
Qed.

Lemma add_transcript_up_to_date_witness :
  add (fun s => s) 0 memo (Some (recording half)) marked = Return true marked.
Proof.
  apply (add_transcript_up_to_date (fun s => s) 0 memo
           (Some (recording half)) marked memo_text).
  - vm_compute; reflexivity.
  - vm_compute; reflexivity.
  - vm_compute; reflexivity.
Defined.

(** What [remove_transcript] does on the reference world. *)
Lemma remove_transcript_run digest (p : path) (w : world) :
  remove digest p w
  = if nonempty (rows_where (w_store w) "source_file" (path_str p)) then
      Return true
        (set_store
           (foldr delete (w_store w)
              (map fst (rows_where (w_store w) "source_file" (path_str p))))
           w)
    else Return false w.
Proof.
  unfold remove, remove_transcript, try_except, bind. simpl.
  rewrite nonempty_map.
  by destruct (nonempty (rows_where _ _ _)).
Qed.

(** Add, then remove: on a store that holds nothing for the path (no
    chunk with its [source_file], nothing under its file id or its
    chunk ids), for a
    file that holds text whose words are shorter than 449 characters,
    [add_transcript] followed by [remove_transcript] of the same path
    answers [true] twice and gives the store back as it was, whatever
    happened to the files, the clock and the working directory in
    between: the removal looks at the stored [source_file] only. *)
Theorem add_then_remove digest fuel (p : path) (w : world) raw :
  w_files w !! absolute (w_cwd w) p = Some raw ->
  truthy (strip raw) = true ->
  longest_word (strip raw) + Chunker.default_chunk_overlap + 1
  < Chunker.default_chunk_size ->
  (Z.to_nat (len (strip raw)) <= fuel)%nat ->
  (forall id e,
      w_store w !! id = Some e ->
      e_metadata e !! "source_file" <> Some (MStr (path_str p))) ->
  (forall i : nat, w_store w !! chunk_id (absolute (w_cwd w) p) i = None) ->
  w_store w !! absolute (w_cwd w) p = None ->
  exists w1,
    add digest fuel p None w = Return true w1
    /\ forall w1',
         w_store w1' = w_store w1 ->
         exists w2,
           remove digest p w1' = Return true w2
           /\ w_store w2 = w_store w.
Proof.
  intros Hfile Hne Hwords Hfuel Hfresh Hids Hbare.
  destruct (ChunkerMore.chunk_text_default_finishes (strip raw) fuel
              Hwords Hfuel) as [chunks Hchunks].
  assert (field (w_store w) (absolute (w_cwd w) p) "content_hash"
          <> Some (MStr (digest (strip raw)))) as Hold.
  { unfold field. by rewrite Hbare. }
  pose proof (add_transcript_run digest fuel p w raw chunks
                Hfile Hne Hold Hchunks) as Hadd.
  eexists. split; [exact Hadd|]. clear Hadd.
  set (ids := imap (fun i _ => chunk_id (absolute (w_cwd w) p) i) chunks).
  set (metas := imap (fun i c =>
                        chunk_fields p (digest (strip raw)) (length chunks) i
                          (str_of (pretty (w_ticks w + i)%nat)) c) chunks).
  set (store1 := upsert_rows ids chunks metas
                   (replicate (length chunks) None) (w_store w)).
  simpl.
  assert (forall (i : nat) chunk,
            chunks !! i = Some chunk ->
            store1 !! chunk_id (absolute (w_cwd w) p) i
            = Some (chunk_entry p (digest (strip raw)) chunks (w_ticks w) i
                      chunk None)) as Hin.
  { intros i chunk Hi. apply (upsert_rows_at _ _ _ _ _ i).
    - apply chunk_ids_NoDup.
    - apply list_lookup_imap_Some. eauto.
    - done.
    - apply list_lookup_imap_Some. eauto.
    - apply lookup_replicate. split; [done|]. by eapply lookup_lt_Some. }
  assert (forall id,
            (forall i : nat,
                (i < length chunks)%nat ->
                id <> chunk_id (absolute (w_cwd w) p) i) ->
            store1 !! id = w_store w !! id) as Hout.
  { intros id Hid. apply upsert_rows_outside.
    intros (i & Hi & ->)%elem_of_chunk_ids. by eapply Hid. }
  clearbody store1. clear ids metas.
  intros w1' Hsame.
  assert (chunks <> []) as Hsome.
  { destruct (strip_head raw Hne) as (c & t & Hs & Hc).
    revert Hchunks. rewrite Hs. unfold Chunker.chunk_text.
    destruct (len (c :: t) <=? Chunker.default_chunk_size);
      [by intros [= <-]|].
    by apply ChunkerMore.loop_some_chunk. }
  rewrite remove_transcript_run, Hsame.
  set (matched := rows_where store1 "source_file" (path_str p)).
  assert (forall id,
            id ∈ map fst matched
            <-> exists i : nat,
                  (i < length chunks)%nat
                  /\ id = chunk_id (absolute (w_cwd w) p) i) as Hmatched.
  { intros id. split.
    - intros [[id' e] [-> Hm]]%list_elem_of_fmap. simpl.
      apply elem_of_rows_where in Hm as [Hl Hs].
      destruct (decide (id' ∈ imap (fun i _ =>
                                      chunk_id (absolute (w_cwd w) p) i)
                                   chunks))
        as [Hyes|Hno]; [by apply elem_of_chunk_ids in Hyes|exfalso].
      rewrite Hout in Hl
        by (intros i Hi ->; apply Hno, elem_of_chunk_ids; eauto).
      by eapply Hfresh.
    - intros (i & Hi & ->).
      apply lookup_lt_is_Some in Hi as [chunk Hi].
      apply (list_elem_of_fmap_2' fst _
               (chunk_id (absolute (w_cwd w) p) i,
                chunk_entry p (digest (strip raw)) chunks (w_ticks w) i
                  chunk None)); [|done].
      apply elem_of_rows_where. split; [by apply Hin|].
      apply chunk_fields_source. }
  destruct (nonempty matched) eqn:Hne'.
  - eexists. split; [reflexivity|]. simpl.
    apply map_eq. intros id. rewrite lookup_foldr_delete_list.
    destruct (decide (id ∈ map fst matched)) as [Hm|Hm].
    + apply Hmatched in Hm as (i & Hi & ->). symmetry. by apply Hids.
    + apply Hout. intros i Hi ->. apply Hm, Hmatched. eauto.
  - exfalso. destruct chunks as [|chunk chunks]; [done|].
    assert (chunk_id (absolute (w_cwd w) p) 0 ∈ map fst matched) as Hm.
    { apply Hmatched. exists 0%nat. simpl. split; [lia|done]. }
    apply list_elem_of_fmap in Hm as (x & _ & Hx).
    assert (nonempty matched = true); [|congruence].
    apply nonempty_elem_of. eauto.
Qed.

Lemma add_then_remove_witness :
  exists w1,
    add (fun s => s) 42 memo None (world_with memo_text) = Return true w1
    /\ forall w1',
         w_store w1' = w_store w1 ->
         exists w2,
           remove (fun s => s) memo w1' = Return true w2
           /\ w_store w2 = w_store (world_with memo_text).
Proof.
  apply (add_then_remove (fun s => s) 42 memo (world_with memo_text)
           memo_text).
  - vm_compute; reflexivity.
  - vm_compute; reflexivity.
  - vm_compute; reflexivity.
  - vm_compute; lia.
  - intros id e H. simpl in H. by rewrite lookup_empty in H.
  - intros i. simpl. apply lookup_empty.
  - simpl. apply lookup_empty.
Defined.

(** Adding with an embedding provider that answers every chunk, on the
    reference collection (which takes vectors of any dimension and
    batches of any size): when the file holds text whose words are
    shorter than 449 characters and no entry under the bare file id
    carries its hash, the provider is called once per chunk, in chunk
    order, [add_transcript] answers [true], and every chunk is stored
    with the vector answered for it. *)
Theorem add_transcript_embeds digest fuel (p : path) (w : world) raw
    (answer : str -> option embedding) :
  w_files w !! absolute (w_cwd w) p = Some raw ->
  truthy (strip raw) = true ->
  field (w_store w) (absolute (w_cwd w) p) "content_hash"
  <> Some (MStr (digest (strip raw))) ->
  longest_word (strip raw) + Chunker.default_chunk_overlap + 1
  < Chunker.default_chunk_size ->
  (Z.to_nat (len (strip raw)) <= fuel)%nat ->
  (forall chunk, is_Some (answer chunk)) ->
  exists chunks w',
    Chunker.chunk_text fuel (strip raw)
      Chunker.default_chunk_size Chunker.default_chunk_overlap = Some chunks
    /\ add digest fuel p (Some (recording answer)) w = Return true w'
    /\ w_embedded w' = w_embedded w ++ chunks
    /\ forall (i : nat) chunk,
         chunks !! i = Some chunk ->
         w_store w' !! chunk_id (absolute (w_cwd w) p) i
         = Some (chunk_entry p (digest (strip raw)) chunks (w_ticks w) i
                   chunk (answer chunk)).
Proof.
  intros Hfile Hne Hold Hwords Hfuel Hall.
  destruct (ChunkerMore.chunk_text_default_finishes (strip raw) fuel
              Hwords Hfuel) as [chunks Hchunks].
  exists chunks. eexists. split; [done|]. split.
  { unfold add.
    eapply (add_transcript_path (Host0 := host digest)
              (Collection0 := collection) fuel p _ w w w w w w).
    - simpl. rewrite Hfile. by rewrite bool_decide_eq_true_2 by eauto.
    - simpl. by rewrite Hfile.
    - done.
    - reflexivity.
    - reflexivity.
    - by apply lookup_not_up_to_date.
    - done.
    - apply embed_chunks_recording.
    - unfold enumerate.
      rewrite (imap_ext _ (fun i x => ((0 + i)%nat, x))) by done.
      apply for_each_chunk_metadata.
    - simpl.
      rewrite well_formed_lengths; rewrite ?length_imap; try done.
      destruct chunks as [|c chunks]; [done|]. simpl map.
      split; [simpl; by rewrite length_map|].
      change (answer c :: map answer chunks) with (map answer (c :: chunks)).
      apply Forall_fmap, Forall_forall. intros chunk _. apply Hall. }
  simpl. split; [done|].
  intros i chunk Hi.
  destruct chunks as [|c chunks]; [done|].
  apply (upsert_rows_at _ _ _ _ _ i).
  - apply chunk_ids_NoDup.
  - apply list_lookup_imap_Some. eauto.
  - done.
  - apply list_lookup_imap_Some. eauto.
  - simpl default.
    change (answer c :: map answer chunks) with (map answer (c :: chunks)).
    by rewrite list_lookup_fmap, Hi.
Qed.

Lemma add_transcript_embeds_witness :
  exists chunks w',
    Chunker.chunk_text 42 (strip memo_text)
      Chunker.default_chunk_size Chunker.default_chunk_overlap = Some chunks
    /\ add (fun s => s) 42 memo (Some (recording half)) (world_with memo_text)
       = Return true w'
    /\ w_embedded w' = w_embedded (world_with memo_text) ++ chunks
    /\ forall (i : nat) chunk,
         chunks !! i = Some chunk ->
         w_store w' !! chunk_id (absolute (w_cwd (world_with memo_text)) memo) i
         = Some (chunk_entry memo (strip memo_text) chunks
                   (w_ticks (world_with memo_text)) i chunk (half chunk)).
Proof.
  apply (add_transcript_embeds (fun s => s) 42 memo (world_with memo_text)
           memo_text half).
  - vm_compute; reflexivity.
  - vm_compute; reflexivity.
  - vm_compute; discriminate.
  - vm_compute; reflexivity.
  - vm_compute; lia.
  - intros chunk. by eexists.
Defined.

(** A missing vector loses the add: when the embedding provider answers
    [None] for some chunk (without raising), the list of vectors is
    passed on as it is; the reference collection rejects the batch, and
    [add_transcript] answers [false] with the store unchanged, after one
    embedding call per chunk. *)
Theorem add_transcript_missing_vector digest fuel (p : path) (w : world)
    raw chunks (answer : str -> option embedding) :
  w_files w !! absolute (w_cwd w) p = Some raw ->
  truthy (strip raw) = true ->
  field (w_store w) (absolute (w_cwd w) p) "content_hash"
  <> Some (MStr (digest (strip raw))) ->
  Chunker.chunk_text fuel (strip raw)
    Chunker.default_chunk_size Chunker.default_chunk_overlap = Some chunks ->
  (exists chunk, chunk ∈ chunks /\ answer chunk = None) ->
  exists w',
    add digest fuel p (Some (recording answer)) w = Return false w'
    /\ w_store w' = w_store w
    /\ w_embedded w' = w_embedded w ++ chunks.
Proof.
  intros Hfile Hne Hold Hchunks (chunk & Hin & Hnone). eexists. split.
  { unfold add.
    eapply (add_transcript_path_rejected (Host0 := host digest)
              (Collection0 := collection) fuel p _ w w w w w w).
    - simpl. rewrite Hfile. by rewrite bool_decide_eq_true_2 by eauto.
    - simpl. by rewrite Hfile.
    - done.
    - reflexivity.
    - reflexivity.
    - by apply lookup_not_up_to_date.
    - done.
    - apply embed_chunks_recording.
    - unfold enumerate.
      rewrite (imap_ext _ (fun i x => ((0 + i)%nat, x))) by done.
      apply for_each_chunk_metadata.
    - simpl.
      destruct chunks as [|c chunks]; [by apply elem_of_nil in Hin|].
      simpl map. cbv iota.
      change (answer c :: map answer chunks) with (map answer (c :: chunks)).
      assert (well_formed
                (imap (fun i _ => chunk_id (absolute (w_cwd w) p) i)
                   (c :: chunks))
                (c :: chunks)
                (imap (fun i c0 =>
                         chunk_fields p (digest (strip raw))
                           (length (c :: chunks)) i
                           (str_of (pretty (w_ticks w + i)%nat)) c0)
                   (c :: chunks))
                (Some (map answer (c :: chunks))) = false) as ->;
        [|reflexivity].
      unfold well_formed. rewrite !andb_false_iff. right. right.
      apply not_true_is_false. intros Hall.
      rewrite forallb_forall in Hall.
      specialize (Hall (answer chunk)).
      rewrite Hnone in Hall. discriminate Hall.
      rewrite <- Hnone. apply list_elem_of_In, list_elem_of_fmap. eauto. }
  done.
Qed.

Lemma add_transcript_missing_vector_witness :
  exists w',
    add (fun s => s) 0 memo (Some (recording (fun _ => None)))
      (world_with memo_text) = Return false w'
    /\ w_store w' = w_store (world_with memo_text)
    /\ w_embedded w' = w_embedded (world_with memo_text) ++ [memo_text].
Proof.
  apply (add_transcript_missing_vector (fun s => s) 0 memo
           (world_with memo_text) memo_text [memo_text] (fun _ => None)).
  - vm_compute; reflexivity.
  - vm_compute; reflexivity.
  - vm_compute; discriminate.
  - vm_compute; reflexivity.
  - exists memo_text. split; [by left|done].
Defined.

End ReferenceMore.

(** ** More facts about the search *)

Module SearchMore.
Import VectorStoreManager SearchDefs SearchFacts VoiceDefs.

Section AnyIndex.
Context {W R : Type} `{!Scalar R, !Index R W}.

(** One pass of the loop, by what the result holds for neighbour [i]:
    a missing distance, document or metadata raises. *)
Lemma collect_cons (qr : query_result R) threshold i doc_id ids acc (w : W) :
  collect qr threshold i (doc_id :: ids) acc w
  = match distance_of qr i with
    | None => Raise IndexError w
    | Some d =>
        if geb (sub one d) threshold then
          match document_at qr i, metadata_at qr i with
          | Some content, Some meta =>
              collect qr threshold (S i) ids
                (acc ++ [{| r_id := doc_id; r_content := content;
                            r_metadata := meta; r_similarity := sub one d;
                            r_distance := d |}]) w
          | _, _ => Raise IndexError w
          end
        else collect qr threshold (S i) ids acc w
    end.
Proof.
  simpl. unfold bind at 1.
  unfold distance_at, distance_of, reported, document_at, metadata_at.
  destruct (nonempty (q_distances qr)).
  - unfold bind at 1. unfold item at 1.
    destruct (q_distances qr !! 0%nat) as [row|]; simpl; [|done].
    unfold item at 1. destruct (row !! i) as [d|]; simpl; [|done].
    destruct (geb (sub one d) threshold); [|done].
    unfold bind, item.
    destruct (q_documents qr !! 0%nat) as [docs|]; simpl; [|done].
    destruct (docs !! i) as [content|]; simpl;
      [|by destruct (q_metadatas qr !! 0%nat) as [metas|]; simpl;
           [destruct (metas !! i)|]].
    destruct (q_metadatas qr !! 0%nat) as [metas|]; simpl; [|done].
    by destruct (metas !! i).
  - unfold ret at 1. simpl.
    destruct (geb (sub one zero) threshold); [|done].
    unfold bind, item.
    destruct (q_documents qr !! 0%nat) as [docs|]; simpl; [|done].
    destruct (docs !! i) as [content|]; simpl;
      [|by destruct (q_metadatas qr !! 0%nat) as [metas|]; simpl;
           [destruct (metas !! i)|]].
    destruct (q_metadatas qr !! 0%nat) as [metas|]; simpl; [|done].
    by destruct (metas !! i).
Qed.

Lemma collect_nil (qr : query_result R) threshold i acc (w : W) :
  collect qr threshold i [] acc w = Return acc w.
Proof. reflexivity. Qed.

Lemma collect_missing_distance (qr : query_result R) threshold :
  forall ids i acc (w : W) (k : nat),
    (k < length ids)%nat ->
    distance_of qr (i + k) = None ->
    exists e, collect qr threshold i ids acc w = Raise e w.
Proof.
  induction ids as [|doc_id ids IH]; intros i acc w k Hk Hnone;
    [simpl in Hk; lia|].
  rewrite collect_cons. destruct k as [|k].
  - rewrite Nat.add_0_r in Hnone. rewrite Hnone. by eexists.
  - assert (forall acc', exists e,
              collect qr threshold (S i) ids acc' w = Raise e w) as Hrest.
    { intros acc'. apply (IH (S i) acc' w k); [simpl in Hk; lia|].
      by replace (S i + k)%nat with (i + S k)%nat by lia. }
    destruct (distance_of qr i) as [d|]; [|by eexists].
    destruct (geb (sub one d) threshold); [|apply Hrest].
    destruct (document_at qr i); [|by eexists].
    destruct (metadata_at qr i); [|by eexists].
    apply Hrest.
Qed.

(** One neighbour without a distance loses the whole answer: when the
    result of the query holds distances but none for some neighbour,
    [search_similar] returns the empty list, also when neighbours before
    it passed the threshold. *)
Theorem search_similar_missing_distance query limit (threshold : R) t
    (w w1 : W) (qr : query_result R) (k : nat) :
  run_query query limit t w = Return qr w1 ->
  (k < length (neighbours qr))%nat ->
  distance_of qr k = None ->
  search_similar query limit threshold t w = Return [] w1.
Proof.
  intros Hq Hk Hnone.
  destruct (collect_missing_distance qr threshold (neighbours qr) 0 [] w1 k
              Hk Hnone) as [e He].
  unfold search_similar, try_except, bind. by rewrite Hq, He.
Qed.

(** On a result that holds a distance, a document and a metadata for
    every neighbour, the loop returns, and it returns exactly the
    results built from the neighbours that pass the threshold. *)
Lemma collect_exact (qr : query_result R) threshold :
  forall ids i acc (w : W),
    (forall k id, ids !! k = Some id ->
                  neighbours qr !! (i + k)%nat = Some id) ->
    (forall k, (k < length ids)%nat ->
       is_Some (distance_of qr (i + k))
       /\ is_Some (document_at qr (i + k))
       /\ is_Some (metadata_at qr (i + k))) ->
    exists new,
      collect qr threshold i ids acc w = Return (acc ++ new) w
      /\ forall r,
           r ∈ new
           <-> exists j, (i <= j < i + length ids)%nat
                         /\ built_from qr threshold j r.
Proof.
  induction ids as [|doc_id ids IH]; intros i acc w Hids Hshape.
  - exists []. rewrite app_nil_r. split; [done|].
    intros r. split; [by intros ?%elem_of_nil|].
    intros (j & Hj & _). simpl in Hj. lia.
  - rewrite collect_cons.
    destruct (Hshape 0%nat) as ([d Hd] & [content Hc] & [meta Hm]);
      [simpl; lia|].
    rewrite Nat.add_0_r in Hd, Hc, Hm. rewrite Hd, Hc, Hm.
    pose proof (Hids 0%nat doc_id eq_refl) as Hid.
    rewrite Nat.add_0_r in Hid.
    assert (forall k id, ids !! k = Some id ->
              neighbours qr !! (S i + k)%nat = Some id) as Hids'.
    { intros k id Hk. specialize (Hids (S k) id Hk).
      by replace (S i + k)%nat with (i + S k)%nat by lia. }
    assert (forall k, (k < length ids)%nat ->
              is_Some (distance_of qr (S i + k))
              /\ is_Some (document_at qr (S i + k))
              /\ is_Some (metadata_at qr (S i + k))) as Hshape'.
    { intros k Hk. replace (S i + k)%nat with (i + S k)%nat by lia.
      apply Hshape. simpl. lia. }
    destruct (geb (sub one d) threshold) eqn:Eg.
    + set (r0 := {| r_id := doc_id; r_content := content; r_metadata := meta;
                    r_similarity := sub one d; r_distance := d |}).
      destruct (IH (S i) (acc ++ [r0]) w Hids' Hshape') as (new & Hrun & Hnew).
      exists (r0 :: new). split.
      { rewrite Hrun. by rewrite <- app_assoc. }
      intros r. rewrite elem_of_cons, Hnew. split.
      * intros [->|(j & Hj & Hb)].
        -- exists i. split; [simpl; lia|]. by repeat split.
        -- exists j. split; [simpl; lia|done].
      * intros (j & Hj & Hb).
        destruct (decide (j = i)) as [->|Hne].
        -- left. destruct Hb as (H1 & H2 & H3 & _ & H5 & H6).
           destruct r as [rid rcontent rmeta rsim rdist]. simpl in *.
           unfold r0. congruence.
        -- right. exists j. split; [simpl in Hj; lia|done].
    + destruct (IH (S i) acc w Hids' Hshape') as (new & Hrun & Hnew).
      exists new. split; [done|].
      intros r. rewrite Hnew. split.
      * intros (j & Hj & Hb). exists j. split; [simpl; lia|done].
      * intros (j & Hj & Hb). exists j. split; [|done].
        destruct (decide (j = i)) as [->|Hne]; [exfalso|simpl in Hj; lia].
        destruct Hb as (_ & H2 & H3 & H4 & _).
        rewrite H3 in H4. congruence.
Qed.

(** The filter is exact: on a result of the query that holds a
    distance, a document and a metadata for every neighbour,
    [search_similar] returns exactly the results built from the
    neighbours whose similarity is at least the threshold; none of them
    is dropped. *)
Theorem search_similar_exact query limit (threshold : R) t (w w1 : W)
    (qr : query_result R) :
  run_query query limit t w = Return qr w1 ->
  (forall k, (k < length (neighbours qr))%nat ->
     is_Some (distance_of qr k)
     /\ is_Some (document_at qr k)
     /\ is_Some (metadata_at qr k)) ->
  exists out,
    search_similar query limit threshold t w = Return out w1
    /\ forall r, r ∈ out <-> exists j, built_from qr threshold j r.
Proof.
  intros Hq Hshape.
  destruct (collect_exact qr threshold (neighbours qr) 0 [] w1)
    as (out & Hrun & Hout); [done|done|].
  exists out. split.
  - unfold search_similar, try_except, bind. by rewrite Hq, Hrun.
  - intros r. rewrite Hout. split.
    + intros (j & _ & Hb). eauto.
    + intros (j & Hb). exists j. split; [|done].
      destruct Hb as (Hj & _). apply lookup_lt_Some in Hj. lia.
Qed.

(** Raising the threshold never adds a result: when the comparison of
    scores is transitive, the results for a higher threshold are among
    the results for a lower one (on a result of the query that holds a
    distance, a document and a metadata for every neighbour). *)
Theorem search_similar_threshold_monotone query limit (lower higher : R) t
    (w w1 : W) (qr : query_result R) :
  (forall a b c : R, leb a b = true -> leb b c = true -> leb a c = true) ->
  leb lower higher = true ->
  run_query query limit t w = Return qr w1 ->
  (forall k, (k < length (neighbours qr))%nat ->
     is_Some (distance_of qr k)
     /\ is_Some (document_at qr k)
     /\ is_Some (metadata_at qr k)) ->
  exists out_lower out_higher,
    search_similar query limit lower t w = Return out_lower w1
    /\ search_similar query limit higher t w = Return out_higher w1
    /\ forall r, r ∈ out_higher -> r ∈ out_lower.
Proof.
  intros Htrans Hle Hq Hshape.
  destruct (collect_exact qr lower (neighbours qr) 0 [] w1)
    as (out1 & Hrun1 & Hout1); [done|done|].
  destruct (collect_exact qr higher (neighbours qr) 0 [] w1)
    as (out2 & Hrun2 & Hout2); [done|done|].
  exists out1, out2. split; [|split].
  - unfold search_similar, try_except, bind. by rewrite Hq, Hrun1.
  - unfold search_similar, try_except, bind. by rewrite Hq, Hrun2.
  - intros r (j & Hj & H1 & H2 & H3 & H4 & H5)%Hout2.
    apply Hout1. exists j. split; [done|].
    split; [done|]. split; [done|]. split; [done|]. split; [|done].
    unfold geb in *. by eapply Htrans.
Qed.

(** [voice_search] lets no exception out. *)
Lemma voice_search_quiet p (a : audio_transcriber W) (w : W) :
  quiet (voice_search (R := R) p a w).
Proof. apply FailSoft.try_except_quiet. Qed.

(** Voice search fails soft: it lets no exception out, and it answers
    the empty list, without a query to the collection, when the
    transcriber has no [transcribe_audio], when the transcription raises,
    and when it gives [None] or the empty text. *)
Theorem voice_search_fail_soft p (a : audio_transcriber W) (w : W) :
  quiet (voice_search (R := R) p a w)
  /\ (transcribe_audio a = None ->
      voice_search (R := R) p a w = Return [] w)
  /\ (forall transcribe e w1,
        transcribe_audio a = Some transcribe ->
        transcribe p w = Raise e w1 ->
        voice_search (R := R) p a w = Return [] w1)
  /\ (forall transcribe text w1,
        transcribe_audio a = Some transcribe ->
        transcribe p w = Return text w1 ->
        text = None \/ text = Some [] ->
        voice_search (R := R) p a w = Return [] w1).
Proof.
  split; [apply voice_search_quiet|].
  unfold voice_search, try_except, bind. repeat split.
  - by intros ->.
  - intros transcribe e w1 -> ->. done.
  - intros transcribe text w1 -> -> [->| ->]; done.
Qed.

End AnyIndex.



Lemma search_similar_exact_witness :
  exists out,
    search_similar (Index0 := Scripted.index Scripted.notes)
      (str_of "q") 5 0.25%float None tt = Return out tt
    /\ forall r,
         r ∈ out
         <-> exists j, built_from (Scripted.cut 5 Scripted.notes) 0.25%float j r.
Proof.
  apply (search_similar_exact (Index0 := Scripted.index Scripted.notes)
           (str_of "q") 5 0.25%float None tt tt (Scripted.cut 5 Scripted.notes)).
  - reflexivity.
  - intros k Hk. change (k < 3)%nat in Hk.
    destruct k as [|[|[|k]]]; [repeat split; eexists; reflexivity..|lia].
Defined.

Lemma search_similar_threshold_monotone_witness :
  exists out_lower out_higher,
    search_similar (Scalar0 := Z_scalar)
      (Index0 := Scripted.index Scripted.ranks) (str_of "q") 5 0 None tt
    = Return out_lower tt
    /\ search_similar (Scalar0 := Z_scalar)
         (Index0 := Scripted.index Scripted.ranks) (str_of "q") 5 1 None tt
       = Return out_higher tt
    /\ forall r, r ∈ out_higher -> r ∈ out_lower.
Proof.
  apply (search_similar_threshold_monotone (Scalar0 := Z_scalar)
           (Index0 := Scripted.index Scripted.ranks)
           (str_of "q") 5 0 1 None tt tt (Scripted.cut 5 Scripted.ranks)).
  - intros a b c. unfold leb. simpl. rewrite !Z.leb_le. lia.
  - reflexivity.
  - reflexivity.
  - intros k Hk. change (k < 3)%nat in Hk.
    destruct k as [|[|[|k]]]; [repeat split; eexists; reflexivity..|lia].
Defined.

Lemma search_similar_missing_distance_witness :
  search_similar (Index0 := Scripted.index short_row)
    (str_of "q") 5 0.25%float None tt = Return [] tt.
Proof.
  apply (search_similar_missing_distance
           (Index0 := Scripted.index short_row)
           (str_of "q") 5 0.25%float None tt tt (Scripted.cut 5 short_row) 1).
  - reflexivity.
  - vm_compute. lia.
  - vm_compute. reflexivity.
Defined.

End SearchMore.

(** ** Statistics: results *)

Module StatisticsFacts.
Import VectorStoreManager Statistics.

Lemma remove_dups_shorter {A} `{!EqDecision A} (l : list A) :
  (length (remove_dups l) <= length l)%nat.
Proof.
  induction l as [|x l IH]; simpl; [done|].
  destruct (decide_rel elem_of x l); simpl; lia.
Qed.

Lemma remove_dups_empty {A} `{!EqDecision A} (l : list A) :
  remove_dups l = [] <-> l = [].
Proof.
  split; [|by intros ->].
  destruct l as [|x l]; [done|]. intros E.
  assert (x ∈ remove_dups (x :: l)) as Hx
    by (apply elem_of_remove_dups; left).
  rewrite E in Hx. by apply elem_of_nil in Hx.
Qed.

Section AnySampling.
Context {W : Type} `{!Sampling W}.

Lemma sampled_files_spec (metadatas : list (option metadata)) :
  forall (w w' : W) files,
    sampled_files metadatas w = Return files w' ->
    w' = w /\ map source_file_of metadatas = map Some files.
Proof.
  unfold sampled_files.
  induction metadatas as [|m metadatas IH]; intros w w' files; simpl.
  - by intros [= <- <-].
  - unfold bind at 1.
    destruct (source_file_of m) as [v|]; [|done].
    unfold ret at 1. unfold bind at 1.
    destruct (for_each _ metadatas w) as [vs w1| |] eqn:E; [|done..].
    apply IH in E as [-> E]. intros [= <- <-]. by rewrite E.
Qed.

(** What the statistics say: [total_chunks] is the count (0 when the
    count is not positive), [sample_size] is the count capped at 100,
    [unique_files] is at most the number of sampled rows, and the
    average divides the count by [unique_files] only when that is
    positive: no division by zero. *)
Theorem get_collection_stats_sound (w w' : W) total unique size avg :
  get_collection_stats w = Return (Stats total unique size avg) w' ->
  exists count w1,
    collection_count w = Return count w1
    /\ total = Z.max 0 count
    /\ size = Z.max 0 (Z.min 100 count)
    /\ ((unique = 0 /\ avg = NInt 0)
        \/ (0 < unique /\ avg = NQuot total unique))
    /\ (count <= 0 -> unique = 0 /\ w' = w1)
    /\ (0 < count ->
        exists sample,
          collection_get_limit (Z.min 100 count) w1 = Return sample w'
          /\ unique <= count_of (g_metadatas sample)
          /\ (unique = 0 <-> g_metadatas sample = [])).
Proof.
  unfold get_collection_stats, try_except, bind.
  destruct (collection_count w) as [count w1| |]; [|done..].
  destruct (Z.ltb_spec 0 count) as [Hpos|Hneg].
  - destruct (collection_get_limit (Z.min 100 count) w1)
      as [sample w2| |] eqn:Es; [|done..].
    destruct (sampled_files (g_metadatas sample) w2)
      as [files w3| |] eqn:Ef; [|done..].
    apply sampled_files_spec in Ef as [-> Ef].
    intros [= <- <- <- <- <-].
    exists count, w1. split; [done|]. split; [lia|]. split; [lia|].
    assert (length (g_metadatas sample) = length files) as Hlen.
    { by rewrite <- (length_map source_file_of), Ef, length_map. }
    pose proof (remove_dups_shorter files) as Hle.
    pose proof (remove_dups_empty files) as Hnil. unfold count_of.
    split; [|split; [lia|intros _]].
    + destruct (remove_dups files) as [|v vs] eqn:E; simpl.
      * by left.
      * right. split; [lia|done].
    + exists sample. split; [done|]. split; [lia|].
      rewrite <- length_zero_iff_nil, Hlen, length_zero_iff_nil, <- Hnil.
      rewrite <- (length_zero_iff_nil (remove_dups files)). lia.
  - intros [= <- <- <- <- <-].
    exists count, w1. split; [done|]. split; [lia|]. split; [lia|].
    split; [by left|]. split; [done|lia].
Qed.

End AnySampling.

Lemma get_collection_stats_sound_witness :
  exists count w1,
    collection_count (Sampling := sampling) one_memo = Return count w1
    /\ 2 = Z.max 0 count
    /\ 2 = Z.max 0 (Z.min 100 count)
    /\ ((1 = 0 /\ NQuot 2 1 = NInt 0)
        \/ (0 < 1 /\ NQuot 2 1 = NQuot 2 1))
    /\ (count <= 0 -> 1 = 0 /\ one_memo = w1)
    /\ (0 < count ->
        exists sample,
          collection_get_limit (Sampling := sampling) (Z.min 100 count) w1
          = Return sample one_memo
          /\ 1 <= count_of (g_metadatas sample)
          /\ (1 = 0 <-> g_metadatas sample = [])).
Proof.
  apply (get_collection_stats_sound (Sampling0 := sampling)
           one_memo one_memo 2 1 2 (NQuot 2 1)).
  vm_compute; reflexivity.
Defined.




End StatisticsFacts.

(** ** Rebuilding: results *)

Module RebuildingFacts.
Import VectorStoreManager Reference ReferenceDefs ReferenceFacts ReferenceMore.
Import Rebuilding.

(** *** Chunk ids *)

Lemma pretty_N_char_digit (x : N) :
  is_digit (Ascii.N_of_ascii (pretty_N_char x)) = true.
Proof. unfold pretty_N_char. by repeat case_match. Qed.

Lemma str_of_String (a : Ascii.ascii) (s : string) :
  str_of (String a s) = Ascii.N_of_ascii a :: str_of s.
Proof. reflexivity. Qed.

Lemma pretty_N_go_digits (x : N) :
  forall s, exists ds,
    str_of (pretty_N_go x s) = ds ++ str_of s
    /\ Forall (fun c => is_digit c = true) ds
    /\ ((0 < x)%N -> ds <> []).
Proof.
  induction (N.lt_wf_0 x) as [x _ IH]; intros s.
  destruct (decide (x = 0)%N) as [->|Hx].
  - exists []. rewrite pretty_N_go_0. split; [done|]. split; [done|lia].
  - rewrite pretty_N_go_step by lia.
    destruct (IH (x `div` 10)%N) with
      (s := String (pretty_N_char (x `mod` 10)) s) as (ds & Hds & Hall & _).
    { apply N.div_lt; lia. }
    exists (ds ++ [Ascii.N_of_ascii (pretty_N_char (x `mod` 10))]).
    rewrite Hds, str_of_String, <- app_assoc. split; [done|]. split.
    + apply Forall_app. split; [done|].
      constructor; [apply pretty_N_char_digit|done].
    + intros _. by destruct ds.
Qed.

(** The decimal numeral of a number: digits, at least one. *)
Lemma pretty_nat_digits (i : nat) :
  Forall (fun c => is_digit c = true) (str_of (pretty i))
  /\ str_of (pretty i) <> [].
Proof.
  unfold pretty, pretty_nat, pretty, pretty_N.
  destruct (decide (N.of_nat i = 0)%N) as [|Hne].
  - split; [|done]. by repeat constructor.
  - destruct (pretty_N_go_digits (N.of_nat i) "") as (ds & Hds & Hall & Hsome).
    rewrite Hds. change (str_of "") with (@nil char). rewrite app_nil_r.
    split; [done|]. apply Hsome. lia.
Qed.

Lemma app_sep_inj (x : char) (l1 l2 k1 k2 : str) :
  x ∉ k1 -> x ∉ k2 ->
  l1 ++ x :: k1 = l2 ++ x :: k2 -> l1 = l2 /\ k1 = k2.
Proof.
  intros H1 H2. revert l2.
  induction l1 as [|c l1 IH]; intros [|c' l2] E; simpl in E.
  - by injection E as ->.
  - injection E as -> ->. exfalso. apply H1.
    apply elem_of_app. right. by left.
  - injection E as -> <-. exfalso. apply H2.
    apply elem_of_app. right. by left.
  - injection E as -> E. by destruct (IH l2 E) as [-> ->].
Qed.

(** Chunk ids tell the file and the index. *)
Lemma chunk_id_inj2 a b (i j : nat) :
  chunk_id a i = chunk_id b j -> a = b /\ i = j.
Proof.
  unfold chunk_id. change (str_of "_") with [95%N]. simpl. intros E.
  assert (forall k : nat, 95%N ∉ str_of (pretty k)) as Hno.
  { intros k Hin. destruct (pretty_nat_digits k) as [Hall _].
    rewrite Forall_forall in Hall. by apply Hall in Hin. }
  apply app_sep_inj in E as [-> E]; [|done..].
  split; [done|]. by apply str_of_inj, (inj pretty) in E.
Qed.

(** Two transcripts never collide on a chunk id: the ids of the chunks
    of two different files are all distinct, however the file ids and
    the numbers of chunks are chosen. *)
Theorem chunk_ids_never_collide a b (chunks1 chunks2 : list str) :
  a <> b ->
  NoDup (imap (fun i _ => chunk_id a i) chunks1
         ++ imap (fun i _ => chunk_id b i) chunks2).
Proof.
  intros Hab. apply NoDup_app. split; [apply chunk_ids_NoDup|].
  split; [|apply chunk_ids_NoDup].
  intros id (i & _ & ->)%elem_of_chunk_ids (j & _ & E)%elem_of_chunk_ids.
  by apply chunk_id_inj2 in E as [? _].
Qed.

Lemma chunk_ids_never_collide_witness :
  NoDup (imap (fun i _ => chunk_id memo_id i) [long_text; short_text]
         ++ imap (fun i _ => chunk_id other_id i) [short_text]).
Proof.
  apply (chunk_ids_never_collide memo_id other_id
           [long_text; short_text] [short_text]).
  intros E. by apply str_of_inj in E.
Defined.

Lemma last_chunk_id file_id (i : nat) :
  exists c, last (chunk_id file_id i) = Some c /\ is_digit c = true.
Proof.
  unfold chunk_id. destruct (pretty_nat_digits i) as [Hall Hne].
  destruct (str_of (pretty i)) as [|d ds] eqn:E using rev_ind; [done|].
  clear IHds. exists d. rewrite !app_assoc, last_snoc. split; [done|].
  apply Forall_app in Hall as [_ Hall]. by apply Forall_cons in Hall as [? _].
Qed.

(** *** What an add does, on the reference world *)

Lemma add_transcript_path_diverges {W} `{!Host W, !Collection W} fuel
    (p : path) (t : option (transcriber W)) (w w1 w2 w3 w4 w5 : W)
    raw file_id existing :
  path_exists p w = Return true w1 ->
  read_text p w1 = Return raw w2 ->
  truthy (strip raw) = true ->
  path_absolute p w2 = Return file_id w3 ->
  collection_get [file_id] w3 = Return existing w4 ->
  (if nonempty (g_ids existing) && nonempty (g_metadatas existing) then
     existing_hash <- first_content_hash (g_metadatas existing) ;;
     ret (bool_decide
            (existing_hash = Some (MStr (md5_hexdigest (strip raw)))))
   else ret false)%py w4 = Return false w5 ->
  Chunker.chunk_text fuel (strip raw)
    Chunker.default_chunk_size Chunker.default_chunk_overlap = None ->
  add_transcript fuel p t w = Diverge.
Proof.
  intros H1 H2 H3 H4 H5 H6 H7.
  unfold add_transcript, try_except.
  unfold bind at 1. rewrite H1. cbv beta iota.
  change (negb true) with false. cbv beta iota.
  unfold bind at 1. rewrite H2. cbv beta iota. rewrite H3.
  change (negb true) with false. cbv beta iota.
  unfold bind at 1. rewrite H4. cbv beta iota.
  unfold bind at 1. rewrite H5. cbv beta iota.
  unfold bind at 1. rewrite H6. cbv beta iota.
  unfold bind at 1. unfold call_chunk_text. rewrite H7. reflexivity.
Qed.

(** The outcome of [add_transcript] without embedding provider, by the
    state of the file and of the store. *)
Lemma add_transcript_eq digest fuel (p : path) (w : world) :
  add digest fuel p None w
  = match w_files w !! absolute (w_cwd w) p with
    | None => Return false w
    | Some raw =>
        if truthy (strip raw) then
          if bool_decide
               (field (w_store w) (absolute (w_cwd w) p) "content_hash"
                = Some (MStr (digest (strip raw))))
          then Return true w
          else
            match Chunker.chunk_text fuel (strip raw)
                    Chunker.default_chunk_size Chunker.default_chunk_overlap
            with
            | None => Diverge
            | Some chunks =>
                Return true
                  (set_store
                     (upsert_rows
                        (imap (fun i _ => chunk_id (absolute (w_cwd w) p) i)
                           chunks)
                        chunks
                        (imap (fun i c =>
                                 chunk_fields p (digest (strip raw))
                                   (length chunks) i
                                   (str_of (pretty (w_ticks w + i)%nat)) c)
                           chunks)
                        (replicate (length chunks) None)
                        (w_store w))
                     (set_ticks (w_ticks w + length chunks) w))
            end
        else Return false w
    end.
Proof.
  destruct (w_files w !! absolute (w_cwd w) p) as [raw|] eqn:Hfile.
  - destruct (truthy (strip raw)) eqn:Hne.
    + destruct (bool_decide _) eqn:Hup.
      * apply bool_decide_eq_true_1 in Hup. unfold add.
        eapply (add_transcript_path_unchanged (Host0 := host digest)
                  (Collection0 := collection) fuel p None w w w w w w).
        -- simpl. rewrite Hfile. by rewrite bool_decide_eq_true_2 by eauto.
        -- simpl. by rewrite Hfile.
        -- done.
        -- reflexivity.
        -- reflexivity.
        -- by apply lookup_up_to_date.
      * apply bool_decide_eq_false_1 in Hup.
        destruct (Chunker.chunk_text _ _ _ _) as [chunks|] eqn:Hchunks.
        -- by apply add_transcript_run.
        -- unfold add.
           eapply (add_transcript_path_diverges (Host0 := host digest)
                     (Collection0 := collection) fuel p None w w w w w w).
           ++ simpl. rewrite Hfile. by rewrite bool_decide_eq_true_2 by eauto.
           ++ simpl. by rewrite Hfile.
           ++ done.
           ++ reflexivity.
           ++ reflexivity.
           ++ by apply lookup_not_up_to_date.
           ++ done.
    + unfold add.
      apply (FailSoft.add_transcript_empty fuel p None w w w raw).
      * simpl. rewrite Hfile. by rewrite bool_decide_eq_true_2 by eauto.
      * simpl. by rewrite Hfile.
      * by destruct (strip raw).
  - unfold add. apply FailSoft.add_transcript_absent.
    simpl. rewrite Hfile. by rewrite bool_decide_eq_false_2 by by intros [].
Qed.

(** *** Rebuilding *)

(** A listed file is not a chunk id: its name ends in a letter, a chunk
    id in a digit. *)
Lemma absolute_not_chunk_id cwd (f : path) file_id (i : nat) :
  transcript_name f -> absolute cwd f <> chunk_id file_id i.
Proof.
  intros [stem Hname] E.
  destruct (last_chunk_id file_id i) as (c & Hlast & Hc).
  rewrite <- E in Hlast.
  assert (exists pre, absolute cwd f = pre ++ path_str f) as [pre Hpre].
  { assert (absolute cwd f = path_str f
            \/ absolute cwd f = cwd ++ str_of "/" ++ path_str f) as [->| ->]
      by (unfold absolute; repeat case_match; auto).
    - by exists [].
    - exists (cwd ++ str_of "/"). by rewrite <- app_assoc. }
  rewrite Hpre in Hlast.
  destruct Hname as [Hn|Hn]; rewrite Hn in Hlast;
    rewrite !app_assoc in Hlast;
    [change (str_of ".txt") with ([46; 116; 120]%N ++ [116%N]) in Hlast
    |change (str_of ".md") with ([46; 109]%N ++ [100%N]) in Hlast];
    rewrite !app_assoc, last_snoc in Hlast;
    injection Hlast as <-; done.
Qed.

Section Rebuilt.
Variable digest : str -> str.
Variable fuel : nat.
Variable w : world.

Lemma chunk_entry_of p raw chunks tick (i : nat) chunk :
  entry_of digest raw i chunk
    (chunk_entry p (digest (strip raw)) chunks tick i chunk None).
Proof.
  split; [done|]. unfold chunk_entry, chunk_fields. simpl.
  split.
  - rewrite !lookup_insert_ne by done. by rewrite lookup_insert_eq.
  - rewrite !lookup_insert_ne by done. by rewrite lookup_insert_eq.
Qed.

Lemma transcript_fun f g raw raw' chunks chunks' :
  absolute (w_cwd w) f = absolute (w_cwd w) g ->
  transcript fuel w f raw chunks -> transcript fuel w g raw' chunks' ->
  raw = raw' /\ chunks = chunks'.
Proof.
  intros E (H1 & _ & H3) (H1' & _ & H3'). rewrite E in H1.
  assert (raw = raw') as -> by congruence. split; [done|congruence].
Qed.

Lemma holds_skip files store f :
  holds digest fuel w files store ->
  (forall raw chunks, ~ transcript fuel w f raw chunks) ->
  holds digest fuel w (files ++ [f]) store.
Proof.
  intros [H1 H2] Hno. split.
  - intros id e He.
    destruct (H1 id e He) as (g & raw & chunks & i & chunk & Hg & Hrest).
    exists g, raw, chunks, i, chunk. split; [|done].
    apply elem_of_app. by left.
  - intros g raw chunks i chunk [Hg|Hg%list_elem_of_singleton]%elem_of_app Ht Hi.
    + by eapply H2.
    + subst g. by destruct (Hno raw chunks).
Qed.

Lemma holds_add files store store' f raw chunks tick :
  holds digest fuel w files store ->
  transcript fuel w f raw chunks ->
  (forall (i : nat) chunk,
      chunks !! i = Some chunk ->
      store' !! chunk_id (absolute (w_cwd w) f) i
      = Some (chunk_entry f (digest (strip raw)) chunks tick i chunk None)) ->
  (forall id,
      (forall i : nat, (i < length chunks)%nat ->
                       id <> chunk_id (absolute (w_cwd w) f) i) ->
      store' !! id = store !! id) ->
  holds digest fuel w (files ++ [f]) store'.
Proof.
  intros [H1 H2] Ht Hin Hout. split.
  - intros id e He.
    destruct (decide (id ∈ imap (fun i _ => chunk_id (absolute (w_cwd w) f) i)
                            chunks)) as [Hyes|Hno].
    + apply elem_of_chunk_ids in Hyes as (i & Hi & ->).
      apply lookup_lt_is_Some in Hi as [chunk Hi].
      rewrite (Hin i chunk Hi) in He. injection He as <-.
      exists f, raw, chunks, i, chunk.
      split; [apply elem_of_app; right; by left|].
      split; [done|]. split; [done|]. split; [done|].
      apply chunk_entry_of.
    + rewrite Hout in He
        by (intros i Hi ->; apply Hno, elem_of_chunk_ids; eauto).
      destruct (H1 id e He) as (g & raw' & chunks' & i & chunk & Hg & Hrest).
      exists g, raw', chunks', i, chunk. split; [|done].
      apply elem_of_app. by left.
  - intros g raw' chunks' i chunk Hg Ht' Hi.
    destruct (decide (absolute (w_cwd w) g = absolute (w_cwd w) f)) as [E|Hne].
    + destruct (transcript_fun g f raw' raw chunks' chunks E Ht' Ht)
        as [-> ->].
      rewrite E. eexists. split; [by apply Hin|]. apply chunk_entry_of.
    + rewrite Hout by (intros j _ [? _]%chunk_id_inj2; done).
      apply elem_of_app in Hg as [Hg|Hg%list_elem_of_singleton];
        [by eapply H2|by subst g].
Qed.

(** While the store holds chunks only, a listed file is not in it under
    its bare id. *)
Lemma holds_bare_id files store f :
  holds digest fuel w files store ->
  transcript_name f ->
  store !! absolute (w_cwd w) f = None.
Proof.
  intros [H1 _] Hname.
  destruct (store !! absolute (w_cwd w) f) as [e|] eqn:E; [exfalso|done].
  destruct (H1 _ e E) as (g & raw & chunks & i & chunk & _ & _ & _ & Hid & _).
  by eapply absolute_not_chunk_id.
Qed.

(** One pass of the loop over the transcript files. *)
Lemma add_all_cons (f : path) rest (n : Z) (wk : world) :
  add_all (Host0 := host digest) (Collection0 := collection)
    fuel (f :: rest) None n wk
  = match add digest fuel f None wk with
    | Return added w1 =>
        add_all (Host0 := host digest) (Collection0 := collection)
          fuel rest None (if added then n + 1 else n) w1
    | Raise e w1 => Raise e w1
    | Diverge => Diverge
    end.
Proof. reflexivity. Qed.

Lemma add_all_holds files :
  forall done (wk : world) (n m : Z) (w' : world),
    w_files wk = w_files w -> w_cwd wk = w_cwd w ->
    Forall transcript_name files ->
    holds digest fuel w done (w_store wk) ->
    add_all (Host0 := host digest) (Collection0 := collection)
      fuel files None n wk = Return m w' ->
    holds digest fuel w (done ++ files) (w_store w')
    /\ n <= m
    /\ (n < m
        <-> exists f raw,
              f ∈ files
              /\ w_files w !! absolute (w_cwd w) f = Some raw
              /\ truthy (strip raw) = true).
Proof.
  induction files as [|f files IH];
    intros done wk n m w' Hfiles Hcwd Hnames Hholds.
  - intros [= <- <-]. rewrite app_nil_r. split; [done|]. split; [lia|].
    split; [lia|]. by intros (f & raw & ?%elem_of_nil & _).
  - apply Forall_cons in Hnames as [Hname Hnames].
    rewrite add_all_cons, add_transcript_eq, Hfiles, Hcwd.
    replace (done ++ f :: files) with ((done ++ [f]) ++ files)
      by (by rewrite <- app_assoc).
    destruct (w_files w !! absolute (w_cwd w) f) as [raw|] eqn:Hf.
    + destruct (truthy (strip raw)) eqn:Ht.
      * rewrite bool_decide_eq_false_2; last first.
        { unfold field. by rewrite (holds_bare_id done _ f Hholds Hname). }
        destruct (Chunker.chunk_text fuel (strip raw) _ _) as [chunks|] eqn:Hc;
          [|done].
        intros Hrun.
        assert (holds digest fuel w (done ++ [f])
                  (upsert_rows
                     (imap (fun i _ => chunk_id (absolute (w_cwd w) f) i)
                        chunks)
                     chunks
                     (imap (fun i c =>
                              chunk_fields f (digest (strip raw))
                                (length chunks) i
                                (str_of (pretty (w_ticks wk + i)%nat)) c)
                        chunks)
                     (replicate (length chunks) None)
                     (w_store wk))) as Hh'.
        { eapply (holds_add done (w_store wk) _ f raw chunks (w_ticks wk));
            [done|done| |].
          - intros i chunk Hi.
            apply (upsert_rows_at _ _ _ _ _ i).
            + apply chunk_ids_NoDup.
            + apply list_lookup_imap_Some. eauto.
            + done.
            + apply list_lookup_imap_Some. eauto.
            + apply lookup_replicate. split; [done|].
              by eapply lookup_lt_Some.
          - intros id Hid. apply upsert_rows_outside.
            intros (i & Hi & ->)%elem_of_chunk_ids. by eapply Hid. }
        apply (IH (done ++ [f])) in Hrun as (Hh & Hle & Hiff);
          [|exact Hfiles|exact Hcwd|exact Hnames|exact Hh'].
        split; [done|]. split; [lia|]. split; [|lia].
        intros _. exists f, raw. split; [by left|done].
      * intros Hrun.
        assert (holds digest fuel w (done ++ [f]) (w_store wk)) as Hh'.
        { apply holds_skip; [done|].
          intros raw' chunks' (H1 & H2 & _). congruence. }
        apply (IH (done ++ [f])) in Hrun as (Hh & Hle & Hiff);
          [|exact Hfiles|exact Hcwd|exact Hnames|exact Hh'].
        split; [done|]. split; [lia|]. rewrite Hiff. split.
        -- intros (g & raw' & Hg & Hrest). exists g, raw'.
           split; [by right|done].
        -- intros (g & raw' & [->|Hg]%elem_of_cons & Hg1 & Hg2).
           ++ congruence.
           ++ eauto.
    + intros Hrun.
      assert (holds digest fuel w (done ++ [f]) (w_store wk)) as Hh'.
      { apply holds_skip; [done|].
        intros raw' chunks' (H1 & _). congruence. }
      apply (IH (done ++ [f])) in Hrun as (Hh & Hle & Hiff);
        [|exact Hfiles|exact Hcwd|exact Hnames|exact Hh'].
      split; [done|]. split; [lia|]. rewrite Hiff. split.
      * intros (g & raw' & Hg & Hrest). exists g, raw'.
        split; [by right|done].
      * intros (g & raw' & [->|Hg]%elem_of_cons & Hg1 & Hg2).
        -- congruence.
        -- eauto.
Qed.

Lemma holds_nothing : holds digest fuel w [] ∅.
Proof.
  split.
  - intros id e H. by rewrite lookup_empty in H.
  - intros f raw chunks i chunk H. by apply elem_of_nil in H.
Qed.

(** The loop lets no exception out: [add_transcript] lets none out. *)
Lemma add_all_quiet files :
  forall (n : Z) (wk : world),
    quiet (add_all (Host0 := host digest) (Collection0 := collection)
             fuel files None n wk).
Proof.
  induction files as [|f files IH]; intros n wk; [done|].
  rewrite add_all_cons.
  pose proof (FailSoft.add_transcript_quiet (Host0 := host digest)
                (Collection0 := collection) fuel f None wk) as Hq.
  fold (add digest) in Hq.
  destruct (add digest fuel f None wk) as [added w1|e w1|]; [apply IH|done..].
Qed.

(** A rebuild that returns ran the loop on the emptied store. *)
Lemma rebuild_run listing dir (b : bool) (w' : world) :
  rebuild digest listing fuel dir None w = Return b w' ->
  exists m,
    add_all (Host0 := host digest) (Collection0 := collection)
      fuel (listed listing dir) None 0 (set_store ∅ w) = Return m w'
    /\ b = (0 <? m).
Proof.
  unfold rebuild, rebuild_index, try_except, bind. simpl.
  fold (listed listing dir).
  pose proof (add_all_quiet (listed listing dir) 0 (set_store ∅ w)) as Hq.
  destruct (add_all fuel (listed listing dir) None 0 (set_store ∅ w))
    as [m w1| |]; [|done..].
  intros [= <- <-]. by exists m.
Qed.

(** After a rebuild the store holds the chunks of the listed
    transcripts, all of them and nothing else: whatever it held before
    is gone. *)
Theorem rebuild_index_holds_listed listing dir (b : bool) (w' : world) :
  Forall transcript_name (listed listing dir) ->
  rebuild digest listing fuel dir None w = Return b w' ->
  holds digest fuel w (listed listing dir) (w_store w').
Proof.
  intros Hnames (m & Hrun & _)%rebuild_run.
  apply (add_all_holds _ []) in Hrun as (Hh & _); try done.
  apply holds_nothing.
Qed.

(** When the words of every listed transcript are shorter than 449
    characters, the loop over the files returns. *)
Lemma add_all_returns files :
  forall (n : Z) (wk : world),
    w_files wk = w_files w -> w_cwd wk = w_cwd w ->
    (forall f raw,
        f ∈ files -> w_files w !! absolute (w_cwd w) f = Some raw ->
        longest_word (strip raw) + Chunker.default_chunk_overlap + 1
        < Chunker.default_chunk_size
        /\ (Z.to_nat (len (strip raw)) <= fuel)%nat) ->
    exists m w',
      add_all (Host0 := host digest) (Collection0 := collection)
        fuel files None n wk = Return m w'.
Proof.
  induction files as [|f files IH]; intros n wk Hfiles Hcwd Hwords.
  - by exists n, wk.
  - rewrite add_all_cons, add_transcript_eq, Hfiles, Hcwd.
    assert (forall g raw,
              g ∈ files -> w_files w !! absolute (w_cwd w) g = Some raw ->
              longest_word (strip raw) + Chunker.default_chunk_overlap + 1
              < Chunker.default_chunk_size
              /\ (Z.to_nat (len (strip raw)) <= fuel)%nat) as Hrest.
    { intros g raw Hg. apply Hwords. by right. }
    destruct (w_files w !! absolute (w_cwd w) f) as [raw|] eqn:Hf;
      [|by apply IH].
    destruct (truthy (strip raw)); [|by apply IH].
    destruct (bool_decide _); [by apply IH|].
    destruct (Hwords f raw) as [Hw Hfuel]; [by left|done|].
    destruct (ChunkerMore.chunk_text_default_finishes (strip raw) fuel
                Hw Hfuel) as [chunks ->].
    by apply IH.
Qed.

(** A rebuild answers [true] exactly when some listed file holds text
    that is not blank: one transcript added is enough. Without embedding
    provider, on the reference collection, and when the words of every
    listed transcript are shorter than 449 characters, the rebuild
    returns, and with that answer. *)
Theorem rebuild_index_true_iff listing dir :
  Forall transcript_name (listed listing dir) ->
  (forall f raw,
      f ∈ listed listing dir ->
      w_files w !! absolute (w_cwd w) f = Some raw ->
      longest_word (strip raw) + Chunker.default_chunk_overlap + 1
      < Chunker.default_chunk_size
      /\ (Z.to_nat (len (strip raw)) <= fuel)%nat) ->
  exists (b : bool) (w' : world),
    rebuild digest listing fuel dir None w = Return b w'
    /\ (b = true
        <-> exists f raw,
              f ∈ listed listing dir
              /\ w_files w !! absolute (w_cwd w) f = Some raw
              /\ truthy (strip raw) = true).
Proof.
  intros Hnames Hwords.
  destruct (add_all_returns (listed listing dir) 0 (set_store ∅ w))
    as (m & w' & Hrun); [done..|].
  exists (0 <? m), w'. split.
  - unfold rebuild, rebuild_index, try_except, bind. simpl.
    fold (listed listing dir). by rewrite Hrun.
  - apply (add_all_holds _ []) in Hrun as (_ & _ & Hiff); try done;
      [|apply holds_nothing].
    rewrite <- Hiff. apply Z.ltb_lt.
Qed.

(** A rebuild re-establishes the transcript-record invariant: for every
    listed file the store then holds either no chunk, or chunks
    [0 .. n-1] with one content hash, also when a stale chunk was left
    by an earlier add. *)
Theorem rebuild_index_restores_records listing dir (b : bool) (w' : world) :
  Forall transcript_name (listed listing dir) ->
  rebuild digest listing fuel dir None w = Return b w' ->
  forall f, f ∈ listed listing dir ->
            record_ok (w_store w') (absolute (w_cwd w) f).
Proof.
  intros Hnames (m & Hrun & _)%rebuild_run f Hf.
  apply (add_all_holds _ []) in Hrun as ([H1 H2] & _); try done;
    [|apply holds_nothing].
  simpl in H1, H2.
  assert (forall (i : nat) e,
            w_store w' !! chunk_id (absolute (w_cwd w) f) i = Some e ->
            exists raw chunks,
              transcript fuel w f raw chunks /\ (i < length chunks)%nat)
    as Hstored.
  { intros i e He.
    destruct (H1 _ e He) as (g & raw & chunks & j & chunk & _ & Ht & Hj & Hid & _).
    apply chunk_id_inj2 in Hid as [Habs ->].
    exists raw, chunks. split; [|by eapply lookup_lt_Some].
    destruct Ht as (Ht1 & Ht2 & Ht3). rewrite <- Habs in Ht1. done. }
  destruct (w_files w !! absolute (w_cwd w) f) as [raw|] eqn:Hfile;
    [destruct (truthy (strip raw)) eqn:Ht;
     [destruct (Chunker.chunk_text fuel (strip raw)
                  Chunker.default_chunk_size Chunker.default_chunk_overlap)
        as [chunks|] eqn:Hc|]|].
  - exists (length chunks), (MStr (digest (strip raw))). intros i. split.
    + intros [chunk Hi]%lookup_lt_is_Some.
      destruct (H2 f raw chunks i chunk Hf) as (e & He & _ & Hx & Hh);
        [done|done|].
      unfold field. rewrite He. done.
    + intros Hi. unfold stored.
      destruct (w_store w' !! chunk_id (absolute (w_cwd w) f) i) as [e|] eqn:He;
        [exfalso|done].
      destruct (Hstored i e He) as (raw' & chunks' & (Ht1 & _ & Ht3) & Hlt).
      assert (raw' = raw) as -> by congruence.
      assert (chunks' = chunks) as -> by congruence. lia.
  - exists 0%nat, (MInt 0). intros i. split; [lia|]. intros _. unfold stored.
    destruct (w_store w' !! chunk_id (absolute (w_cwd w) f) i) as [e|] eqn:He;
      [exfalso|done].
    destruct (Hstored i e He) as (raw' & chunks' & (Ht1 & _ & Ht3) & _).
    congruence.
  - exists 0%nat, (MInt 0). intros i. split; [lia|]. intros _. unfold stored.
    destruct (w_store w' !! chunk_id (absolute (w_cwd w) f) i) as [e|] eqn:He;
      [exfalso|done].
    destruct (Hstored i e He) as (raw' & chunks' & (Ht1 & Ht2 & _) & _).
    congruence.
  - exists 0%nat, (MInt 0). intros i. split; [lia|]. intros _. unfold stored.
    destruct (w_store w' !! chunk_id (absolute (w_cwd w) f) i) as [e|] eqn:He;
      [exfalso|done].
    destruct (Hstored i e He) as (raw' & chunks' & (Ht1 & _) & _).
    congruence.
Qed.

(** A rebuild over a directory without transcripts empties the index
    and answers [false]. *)
Theorem rebuild_index_empty_directory listing dir
    (t : option (transcriber world)) :
  listed listing dir = [] ->
  rebuild digest listing fuel dir t w = Return false (set_store ∅ w).
Proof.
  unfold listed, rebuild, rebuild_index, try_except, bind. simpl.
  by intros ->.
Qed.

End Rebuilt.

Lemma finds_memo_names : Forall transcript_name (listed finds_memo recordings).
Proof.
  constructor; [|constructor]. exists (str_of "a"). by left.
Qed.

Lemma rebuild_index_holds_listed_witness :
  holds (fun s => s) 2 (indexed_short (fun s => s))
    (listed finds_memo recordings) (w_store rebuilt).
Proof.
  apply (rebuild_index_holds_listed (fun s => s) 2
           (indexed_short (fun s => s)) finds_memo recordings true rebuilt).
  - apply finds_memo_names.
  - vm_compute; reflexivity.
Defined.

Lemma rebuild_index_true_iff_witness :
  exists (b : bool) (w' : world),
    rebuild (fun s => s) finds_memo 2 recordings None
      (indexed_short (fun s => s)) = Return b w'
    /\ (b = true
        <-> exists f raw,
              f ∈ listed finds_memo recordings
              /\ w_files (indexed_short (fun s => s))
                   !! absolute (w_cwd (indexed_short (fun s => s))) f
                 = Some raw
              /\ truthy (strip raw) = true).
Proof.
  apply (rebuild_index_true_iff (fun s => s) 2
           (indexed_short (fun s => s)) finds_memo recordings).
  - apply finds_memo_names.
  - intros f raw Hf Hraw.
    apply list_elem_of_singleton in Hf as ->.
    vm_compute in Hraw. injection Hraw as <-.
    split; [vm_compute; reflexivity|vm_compute; lia].
Defined.

Lemma rebuild_index_restores_records_witness :
  record_ok (w_store rebuilt)
    (absolute (w_cwd (indexed_short (fun s => s))) memo).
Proof.
  apply (rebuild_index_restores_records (fun s => s) 2
           (indexed_short (fun s => s)) finds_memo recordings true rebuilt).
  - apply finds_memo_names.
  - vm_compute; reflexivity.
  - by left.
Defined.

Lemma rebuild_index_empty_directory_witness :
  rebuild (fun s => s) finds_nothing 0 recordings None
    (indexed_short (fun s => s))
  = Return false (set_store ∅ (indexed_short (fun s => s))).
Proof.
  apply (rebuild_index_empty_directory (fun s => s) 0
           (indexed_short (fun s => s)) finds_nothing recordings None).
  reflexivity.
Defined.

End RebuildingFacts.

(** ** The Gemini transcriber: results *)

Module GeminiFacts.
Import VectorStoreManager GeminiTranscriber.

Section AnyClient.
Context {W : Type} `{!Client W}.

(** [get_embedding] lets no exception out; it answers [None] for a
    blank text without calling the client; it answers [None] when the
    client raises; and a vector it returns is never empty. *)
Theorem get_embedding_safe (text : str) (w : W) :
  quiet (get_embedding text w)
  /\ (strip text = [] -> get_embedding text w = Return None w)
  /\ (forall e w1,
        truthy (strip text) = true ->
        embed_content text w = Raise e w1 ->
        get_embedding text w = Return None w1)
  /\ (forall v w1, get_embedding text w = Return (Some v) w1 -> v <> []).
Proof.
  split; [apply FailSoft.try_except_quiet|].
  unfold get_embedding, try_except, bind. repeat split.
  - by intros ->.
  - intros e w1 -> H. simpl. by rewrite H.
  - intros v w1. destruct (truthy (strip text)); simpl; [|done].
    destruct (embed_content text w) as [[[|[[|x values]|] rest]|] w2| |];
      try done.
    by intros [= <- _].
Qed.

(** A vector that [get_embedding] returns is not empty. *)
Lemma get_embedding_vector (text : str) (w w1 : W) v :
  get_embedding text w = Return (Some v) w1 -> v <> [].
Proof.
  unfold get_embedding, try_except, bind.
  destruct (truthy (strip text)); simpl; [|done].
  destruct (embed_content text w) as [[[|[[|x values]|] rest]|] w2| |];
    try done.
  by intros [= <- _].
Qed.

(** Each call of [get_embedding] returns or never ends. *)
Lemma get_embedding_cases (text : str) (w : W) :
  (exists v w1, get_embedding text w = Return v w1)
  \/ get_embedding text w = Diverge.
Proof.
  pose proof (FailSoft.try_except_quiet
                (if negb (truthy (strip text)) then ret None else
                 result <- embed_content text ;;
                 match result with
                 | Some (embedding :: _) =>
                     match embedding with
                     | Some (x :: values) => ret (Some (x :: values))
                     | _ => ret None
                     end
                 | _ => ret None
                 end)%py None w) as H.
  fold (get_embedding text) in H.
  destruct (get_embedding text w) as [v w1|e w1|]; [left; eauto|done|by right].
Qed.

Lemma for_each_get_embedding (chunks : list str) :
  forall w : W,
    (exists embeddings w1,
        for_each get_embedding chunks w = Return embeddings w1
        /\ length embeddings = length chunks
        /\ Forall (fun e => e <> Some []) embeddings)
    \/ for_each get_embedding chunks w = Diverge.
Proof.
  induction chunks as [|c chunks IH]; intros w; simpl.
  - left. exists [], w. by repeat split.
  - unfold bind.
    destruct (get_embedding_cases c w) as [(v & w1 & Hv)|Hd];
      [|right; by rewrite Hd].
    rewrite Hv.
    destruct (IH w1) as [(embs & w2 & He & Hlen & Hall)|Hd];
      [|right; by rewrite Hd].
    left. rewrite He. exists (v :: embs), w2.
    split; [done|]. split; [simpl; lia|].
    constructor; [|done].
    destruct v as [v|]; [|done].
    intros [= ->]. by eapply get_embedding_vector.
Qed.

(** With the Gemini transcriber the embedding step of [add_transcript]
    never falls back: [get_embedding] swallows every failure itself, so
    the handler around the loop is never entered; the step gives one
    entry per chunk (a vector, or [None] where the call failed), unless
    a call never ends. *)
Theorem embed_chunks_gemini (chunks : list str) (w : W) :
  (exists embeddings w1,
      embed_chunks (Some gemini) chunks w = Return (Some embeddings) w1
      /\ length embeddings = length chunks
      /\ Forall (fun e => e <> Some []) embeddings)
  \/ embed_chunks (Some gemini) chunks w = Diverge.
Proof.
  unfold embed_chunks, gemini, try_except, bind. simpl.
  destruct (for_each_get_embedding chunks w)
    as [(embs & w1 & He & Hlen & Hall)|Hd].
  - left. rewrite He. by exists embs, w1.
  - right. by rewrite Hd.
Qed.

(** Searching with the Gemini transcriber falls back to a text query:
    for a blank query, without a call to the client; and when the
    client raises, instead of giving up the search. *)
Theorem search_similar_gemini_falls_back {R : Type} `{!Scalar R, !Index R W}
    query limit (threshold : R) (w : W) :
  (strip query = [] ->
   search_similar query limit threshold (Some gemini) w
   = search_similar query limit threshold None w)
  /\ (forall e w1,
        truthy (strip query) = true ->
        embed_content query w = Raise e w1 ->
        search_similar query limit threshold (Some gemini) w
        = search_similar query limit threshold None w1).
Proof.
  unfold search_similar, try_except, bind, run_query, bind, gemini. simpl.
  unfold get_embedding, try_except, bind. split.
  - by intros ->.
  - intros e w1 -> H. simpl. by rewrite H.
Qed.

End AnyClient.
End GeminiFacts.

(** ** Cleaning: results *)

Module CleaningFacts.
Import Cleaning.

Lemma split_lines_no_newline (text : str) :
  Forall (fun line => newline ∉ line) (split_lines text).
Proof.
  induction text as [|c text IH]; simpl.
  - constructor; [by intros ?%elem_of_nil|constructor].
  - destruct (N.eqb_spec c newline) as [->|Hc].
    + constructor; [by intros ?%elem_of_nil|done].
    + destruct (split_lines text) as [|line lines]; simpl.
      * constructor; [|constructor].
        intros [?|?%elem_of_nil]%elem_of_cons; done.
      * apply Forall_cons in IH as [Hl Hls]. constructor; [|done].
        intros [?|?]%elem_of_cons; done.
Qed.

Lemma split_lines_line (line : str) :
  newline ∉ line -> split_lines line = [line].
Proof.
  induction line as [|c line IH]; [done|].
  intros [Hc Hl]%not_elem_of_cons. simpl.
  destruct (N.eqb_spec c newline) as [|_]; [done|]. by rewrite IH.
Qed.

Lemma split_lines_app (line rest : str) :
  newline ∉ line ->
  split_lines (line ++ newline :: rest) = line :: split_lines rest.
Proof.
  induction line as [|c line IH]; [done|].
  intros [Hc Hl]%not_elem_of_cons. simpl.
  destruct (N.eqb_spec c newline) as [|_]; [done|]. by rewrite IH.
Qed.

Lemma strip_no_newline (line : str) :
  newline ∉ line -> newline ∉ strip line.
Proof.
  destruct (strip_infix line) as (pre & post & H). intros Hn Hin.
  apply Hn. rewrite H. apply elem_of_app. right.
  apply elem_of_app. by left.
Qed.

Section Clean.
Variable lower : str -> str.

(** A line that the loop keeps: trimmed, not empty, not an artifact,
    and on one line. *)
Definition kept (line : str) : Prop :=
  strip line = line /\ truthy line = true /\ artifact lower line = false
  /\ newline ∉ line.

Lemma cleaned_kept (lines : list str) :
  Forall (fun line => newline ∉ line) lines ->
  Forall kept (cleaned lower lines).
Proof.
  induction 1 as [|line lines Hl Hls IH]; simpl; [constructor|].
  destruct (truthy (strip line)) eqn:Et; simpl; [|done].
  destruct (artifact lower (strip line)) eqn:Ea; [done|].
  constructor; [|done].
  split; [apply strip_idem|]. split; [done|]. split; [done|].
  by apply strip_no_newline.
Qed.

(** Cleaning the joined kept lines gives the kept lines back. *)
Lemma cleaned_join (lines : list str) :
  Forall kept lines ->
  cleaned lower (split_lines (join [newline; newline] lines)) = lines.
Proof.
  induction 1 as [|line lines (Hs & Ht & Ha & Hn) Hls IH]; [done|].
  destruct lines as [|line' lines].
  - simpl join. rewrite split_lines_line by done. simpl.
    by rewrite Hs, Ht, Ha.
  - change (join [newline; newline] (line :: line' :: lines))
      with (line ++ newline :: newline :: join [newline; newline]
                                             (line' :: lines)).
    rewrite split_lines_app by done.
    change (split_lines (newline :: join [newline; newline] (line' :: lines)))
      with ([] :: split_lines (join [newline; newline] (line' :: lines))).
    simpl cleaned at 1. rewrite Hs, Ht, Ha. simpl negb. cbv iota.
    f_equal.
    change (cleaned lower ([] :: ?l)) with (cleaned lower l).
    exact IH.
Qed.

(** Cleaning is idempotent: a cleaned transcription is left as it is by
    a second cleaning. *)
Theorem clean_transcription_idempotent (text : str) :
  _clean_transcription lower (_clean_transcription lower text)
  = _clean_transcription lower text.
Proof.
  unfold _clean_transcription at 1 3. f_equal.
  apply cleaned_join, cleaned_kept, split_lines_no_newline.
Qed.

End Clean.
End CleaningFacts.
